(** * The FUSE inode reference cache of bcachefs-tools (fuse_inode.c)

    A shallow embedding of [fuse_inode.c]: the table of open inodes,
    the operations [bf_inode_get], [bf_inode_get_ref], [bf_inode_unlink]
    and [bf_inode_put] as transformers of the table, sequences of calls,
    threads that make the calls move by move under the lock, and the
    properties the specification states about them. *)

From stdpp Require Import gmap list.
From Stdlib Require Import ZArith Lia.

Local Open Scope Z_scope.

(** ** Machine integers *)

(** [uint64_t]: a [Z] in the range [0 .. 2^64 - 1]; arithmetic wraps. *)
Definition u64 (x : Z) : Prop := 0 <= x < 2 ^ 64.

Definition wrap64 (x : Z) : Z := x mod 2 ^ 64.

(** The errno values of <errno.h> that the file uses. *)
Definition ENOENT : Z := 2.
Definition ENOMEM : Z := 12.
Definition EEXIST : Z := 17.

(** ** Data model *)

(** [struct bf_inode], without the intrusive [hash] link, which belongs
    to the hash table. *)
Record bf_inode : Type := Build_bf_inode {
  key : Z;
  open_count : Z;
  unlinked : bool
}.

Definition set_key (k : Z) (e : bf_inode) : bf_inode :=
  {| key := k; open_count := open_count e; unlinked := unlinked e |}.

Definition set_open_count (c : Z) (e : bf_inode) : bf_inode :=
  {| key := key e; open_count := c; unlinked := unlinked e |}.

Definition set_unlinked (b : bool) (e : bf_inode) : bf_inode :=
  {| key := key e; open_count := open_count e; unlinked := b |}.

(** The static [table].  Every [struct bf_inode] the file allocates is
    owned by the table from its insertion to its removal, so the table
    is a finite map from the key to the object itself. *)
Abbreviation rhashtable := (gmap Z bf_inode).

(** A [struct bf_inode *] as the functions of the file return it: the
    null pointer, an errno packed by [ERR_PTR], or a pointer to the
    object that the table holds under a key. *)
Inductive bfi_ptr : Type :=
  | NULL
  | ERR_PTR (err : Z)
  | Entry (ino : Z).

Definition IS_ERR (p : bfi_ptr) : bool :=
  match p with ERR_PTR _ => true | _ => false end.

Definition is_null (p : bfi_ptr) : bool :=
  match p with NULL => true | _ => false end.

(** ** Effects *)

(** A call either returns a value and leaves a table behind, or the
    process stops: [Bug] when a [BUG_ON] fires, [Fault] when a pointer
    that designates no live object is dereferenced. *)
Inductive outcome (A : Type) : Type :=
  | Ret (a : A) (t : rhashtable)
  | Bug
  | Fault.

Arguments Ret {A} a t.
Arguments Bug {A}.
Arguments Fault {A}.

Definition M (A : Type) : Type := rhashtable -> outcome A.

Definition ret {A : Type} (a : A) : M A := fun t => Ret a t.

Definition bind {A B : Type} (m : M A) (k : A -> M B) : M B :=
  fun t =>
    match m t with
    | Ret a t' => k a t'
    | Bug => Bug
    | Fault => Fault
    end.

Notation "'let*' x ':=' m 'in' k" := (bind m (fun x => k))
  (at level 10, x name, m at level 100, k at level 200).
Notation "m '>>' k" := (bind m (fun _ => k))
  (at level 100, k at level 200, right associativity).

Definition BUG_ON (c : bool) : M unit :=
  fun t => if c then Bug else Ret tt t.

(** [bfi->field], read. *)
Definition load (p : bfi_ptr) : M bf_inode :=
  fun t =>
    match p with
    | Entry ino =>
        match t !! ino with
        | Some e => Ret e t
        | None => Fault
        end
    | _ => Fault
    end.

(** [bfi->field = ...], written as an update of the whole object. *)
Definition store (p : bfi_ptr) (f : bf_inode -> bf_inode) : M unit :=
  fun t =>
    match p with
    | Entry ino =>
        match t !! ino with
        | Some e => Ret tt (<[ino := f e]> t)
        | None => Fault
        end
    | _ => Fault
    end.

(** ** The hash table *)

(** Modelled from the spec: [rhashtable_init] of linux/rhashtable.h,
    whose code is not in fuse_inode.c.  The specification describes
    the table as a key to entry mapping with at most one entry per key,
    empty after [init], which fails when the table cannot be
    allocated. *)
Definition rhashtable_init (mem_ok : bool) : outcome Z :=
  if mem_ok then Ret 0 ∅ else Ret (- ENOMEM) ∅.

(** Modelled from the spec: [rhashtable_lookup_fast], the entry under
    the key or the null pointer. *)
Definition rhashtable_lookup_fast (ino : Z) : M bfi_ptr :=
  fun t =>
    match t !! ino with
    | Some _ => Ret (Entry ino) t
    | None => Ret NULL t
    end.

(** Modelled from the spec: [rhashtable_lookup_insert_fast], which
    inserts the object under its key unless the key is taken, and
    answers 0 or [-EEXIST]. *)
Definition rhashtable_lookup_insert_fast (obj : bf_inode) : M Z :=
  fun t =>
    match t !! key obj with
    | Some _ => Ret (- EEXIST) t
    | None => Ret 0 (<[key obj := obj]> t)
    end.

(** Modelled from the spec: [rhashtable_remove_fast], which takes the
    object out of the table, and answers 0 or [-ENOENT]. *)
Definition rhashtable_remove_fast (p : bfi_ptr) : M Z :=
  fun t =>
    match p with
    | Entry ino =>
        match t !! ino with
        | Some _ => Ret 0 (delete ino t)
        | None => Ret (- ENOENT) t
        end
    | _ => Fault
    end.

(** ** The operations of fuse_inode.c

    [mutex_lock(&lock)] and [mutex_unlock(&lock)] bracket the whole body
    of every public function; here each body is one state transformer.
    [calloc_ok] tells whether [calloc], if the call reaches it, returns
    memory. *)

(** [die] ends the process: no table comes out of a failed [init]. *)
Definition bf_inode_init (mem_ok : bool) : option rhashtable :=
  match rhashtable_init mem_ok with
  | Ret r t => if negb (r =? 0) then None else Some t
  | _ => None
  end.

(** What [__bf_inode_get] makes of the zeroed memory of [calloc]:
    [bfi->key = ino; bfi->open_count = 0;]. *)
Definition new_bf_inode (ino : Z) : bf_inode :=
  let zeroed := {| key := 0; open_count := 0; unlinked := false |} in
  set_open_count 0 (set_key ino zeroed).

(** Look the inode up; make and insert its entry when there is none. *)
Definition __bf_inode_get (calloc_ok : bool) (ino : Z) : M bfi_ptr :=
  let* bfi := rhashtable_lookup_fast ino in
  if negb (is_null bfi) then ret bfi
  else if negb calloc_ok then ret (ERR_PTR (- ENOMEM))
  else
    let obj := new_bf_inode ino in
    let* r := rhashtable_lookup_insert_fast obj in
    BUG_ON (r =? EEXIST) >>
    ret (Entry ino).

Definition bf_inode_get (calloc_ok : bool) (ino : Z) : M bfi_ptr :=
  __bf_inode_get calloc_ok ino.

(** Lookup the given inode and acquire a new open ref on it. *)
Definition bf_inode_get_ref (calloc_ok : bool) (ino : Z) : M bfi_ptr :=
  let* bfi := __bf_inode_get calloc_ok ino in
  if IS_ERR bfi then ret bfi
  else
    let* e := load bfi in
    store bfi (set_open_count (wrap64 (open_count e + 1))) >>
    ret bfi.

(** Mark an inode unlinked.  Returns [true] if there were no references
    on the inode, [false] if the inode is open. *)
Definition bf_inode_unlink (ino : Z) : M bool :=
  let* bfi := rhashtable_lookup_fast ino in
  (if negb (is_null bfi) then store bfi (set_unlinked true) else ret tt) >>
  ret (is_null bfi).

(** Release a given inode this number of times.  Returns [true] if the
    inode can be deleted, [false] otherwise. *)
Definition bf_inode_put (calloc_ok : bool) (ino release_count : Z) : M bool :=
  let* bfi := __bf_inode_get calloc_ok ino in
  BUG_ON (is_null bfi) >>
  BUG_ON (IS_ERR bfi) >>
  let* e := load bfi in
  BUG_ON (open_count e <? release_count) >>
  store bfi (set_open_count (wrap64 (open_count e - release_count))) >>
  let* e := load bfi in
  if 0 <? open_count e then ret false
  else
    let del := unlinked e in
    let* r := rhashtable_remove_fast bfi in
    BUG_ON (negb (r =? 0)) >>
    ret del.

(** ** Sequences of calls *)

(** One call of the public interface, with the outcome of [calloc]
    should the call reach it. *)
Inductive op : Type :=
  | Get (calloc_ok : bool) (ino : Z)
  | GetRef (calloc_ok : bool) (ino : Z)
  | Unlink (ino : Z)
  | Put (calloc_ok : bool) (ino release_count : Z).

Inductive retval : Type :=
  | RPtr (p : bfi_ptr)
  | RBool (b : bool).

Definition step (o : op) : M retval :=
  match o with
  | Get ok ino => let* p := bf_inode_get ok ino in ret (RPtr p)
  | GetRef ok ino => let* p := bf_inode_get_ref ok ino in ret (RPtr p)
  | Unlink ino => let* b := bf_inode_unlink ino in ret (RBool b)
  | Put ok ino n => let* b := bf_inode_put ok ino n in ret (RBool b)
  end.

(** The calls of [ops] in order; the return values are dropped. *)
Fixpoint run (ops : list op) : M unit :=
  match ops with
  | [] => ret tt
  | o :: ops' => step o >> run ops'
  end.

Definition op_ino (o : op) : Z :=
  match o with
  | Get _ ino | GetRef _ ino | Unlink ino | Put _ ino _ => ino
  end.

(** The arguments of a call are [uint64_t] values. *)
Definition op_wf (o : op) : Prop :=
  match o with
  | Get _ ino | GetRef _ ino | Unlink ino => u64 ino
  | Put _ ino n => u64 ino /\ u64 n
  end.

(** A call that takes or releases references of [ino]. *)
Definition counts_on (ino : Z) (o : op) : Prop :=
  match o with
  | GetRef _ i | Put _ i _ => i = ino
  | _ => False
  end.

(** A call that releases references of [ino]. *)
Definition puts_on (ino : Z) (o : op) : Prop :=
  match o with
  | Put _ i _ => i = ino
  | _ => False
  end.

(** References taken by a call that returned [r]: one for a get_ref
    that returned an entry, none for a get_ref that returned an error. *)
Definition acquires (o : op) (r : retval) : Z :=
  match o, r with
  | GetRef _ _, RPtr p => if IS_ERR p then 0 else 1
  | _, _ => 0
  end.

(** References taken along [ops], run from [t]; nothing is taken once
    the process has stopped. *)
Fixpoint acquired (ops : list op) (t : rhashtable) : Z :=
  match ops with
  | [] => 0
  | o :: ops' =>
      match step o t with
      | Ret r t' => acquires o r + acquired ops' t'
      | _ => 0
      end
  end.

(** References that the puts of [ops] ask to release. *)
Fixpoint released (ops : list op) : Z :=
  match ops with
  | [] => 0
  | Put _ _ n :: ops' => n + released ops'
  | _ :: ops' => released ops'
  end.

(** References that call [o] takes when made on table [t]. *)
Definition gain (o : op) (t : rhashtable) : Z :=
  match step o t with
  | Ret r _ => acquires o r
  | _ => 0
  end.

(** The table accounts for [c] references of [ino]: an entry with
    [open_count = c] when [c] is positive, no entry when [c = 0]. *)
Definition holds (t : rhashtable) (ino c : Z) : Prop :=
  match t !! ino with
  | Some e => open_count e = c /\ 0 < c
  | None => c = 0
  end.

(** The tables that the interface can produce: those that a sequence of
    calls reaches from the table that [bf_inode_init] sets up. *)
Definition reachable (t : rhashtable) : Prop :=
  exists t0 ops, bf_inode_init true = Some t0 /\ run ops t0 = Ret tt t.

(** Every entry sits under its own key and its counter is a [uint64_t]. *)
Definition wf (t : rhashtable) : Prop :=
  forall k e, t !! k = Some e -> key e = k /\ u64 (open_count e).

(** ** Threads *)

(** Where a thread stands in the loop
    [for (;;) { bf_inode_get_ref(ino); bf_inode_put(ino, 1); }]:
    outside the two calls, or inside one of them between two accesses
    to the shared state, with the locals [bfi] and the value read from
    [bfi->open_count]. *)
Inductive pc : Type :=
  | Idle
  | GetRefLocked
  | GetRefGot (bfi : bfi_ptr)
  | GetRefLoaded (bfi : bfi_ptr) (v : Z)
  | GetRefOut (bfi : bfi_ptr)
  | Opened
  | PutLocked
  | PutGot (bfi : bfi_ptr)
  | PutLoaded (bfi : bfi_ptr) (v : Z)
  | PutStored (bfi : bfi_ptr)
  | PutOut (del : bool).

(** A thread: where it stands and how many rounds it has yet to start. *)
Record thread : Type := Thread {
  at_pc : pc;
  todo : nat
}.

(** The process: the static [lock] with its owner, the static [table],
    and the threads. *)
Record config : Type := Config {
  lock : option nat;
  table : rhashtable;
  threads : list thread
}.

Inductive result : Type :=
  | Next (c : config)
  | Blocked
  | Crashed.

(** Modelled from the spec: [mutex_lock] of linux/mutex.h, whose code
    is not in fuse_inode.c.  The specification calls [lock] a
    process-wide exclusive lock: the call goes through when nobody
    holds the lock and waits otherwise. *)
Definition mutex_lock (c : config) (i : nat) (th' : thread) : result :=
  match lock c with
  | None =>
      Next {| lock := Some i; table := table c;
              threads := <[i := th']> (threads c) |}
  | Some _ => Blocked
  end.

(** Modelled from the spec: [mutex_unlock], which gives the lock
    back. *)
Definition mutex_unlock (c : config) (i : nat) (th' : thread) : result :=
  Next {| lock := None; table := table c;
          threads := <[i := th']> (threads c) |}.

(** Thread [i] runs [m] on the table and goes on at the place that [k]
    gives for the result. *)
Definition exec {A : Type} (m : M A) (k : A -> pc)
    (c : config) (i : nat) (th : thread) : result :=
  match m (table c) with
  | Ret a t' =>
      Next {| lock := lock c; table := t';
              threads := <[i := {| at_pc := k a; todo := todo th |}]> (threads c) |}
  | _ => Crashed
  end.

(** One move of thread [i]: a stretch of [bf_inode_get_ref(ino)] or
    [bf_inode_put(ino, 1)].  The calls are cut at [mutex_lock] and
    [mutex_unlock], after [__bf_inode_get], and between the read and
    the write of [bfi->open_count]; another thread may run between two
    moves.  [calloc_ok] is the answer of [calloc] should the move reach
    it. *)
Definition thread_step (ino : Z) (calloc_ok : bool) (i : nat) (c : config)
    : result :=
  match threads c !! i with
  | None => Blocked
  | Some th =>
      match at_pc th with
      | Idle =>
          match todo th with
          | O => Blocked
          | S rest => mutex_lock c i {| at_pc := GetRefLocked; todo := rest |}
          end
      | GetRefLocked =>
          exec (__bf_inode_get calloc_ok ino) GetRefGot c i th
      | GetRefGot bfi =>
          if IS_ERR bfi then exec (ret tt) (fun _ => GetRefOut bfi) c i th
          else exec (let* e := load bfi in ret (open_count e))
                    (GetRefLoaded bfi) c i th
      | GetRefLoaded bfi v =>
          exec (store bfi (set_open_count (wrap64 (v + 1))))
               (fun _ => GetRefOut bfi) c i th
      | GetRefOut bfi =>
          mutex_unlock c i {| at_pc := Opened; todo := todo th |}
      | Opened =>
          mutex_lock c i {| at_pc := PutLocked; todo := todo th |}
      | PutLocked =>
          exec (let* bfi := __bf_inode_get calloc_ok ino in
                BUG_ON (is_null bfi) >>
                BUG_ON (IS_ERR bfi) >>
                ret bfi)
               PutGot c i th
      | PutGot bfi =>
          exec (let* e := load bfi in
                BUG_ON (open_count e <? 1) >>
                ret (open_count e))
               (PutLoaded bfi) c i th
      | PutLoaded bfi v =>
          exec (store bfi (set_open_count (wrap64 (v - 1))))
               (fun _ => PutStored bfi) c i th
      | PutStored bfi =>
          exec (let* e := load bfi in
                if 0 <? open_count e then ret false
                else
                  let del := unlinked e in
                  let* r := rhashtable_remove_fast bfi in
                  BUG_ON (negb (r =? 0)) >>
                  ret del)
               PutOut c i th
      | PutOut del =>
          mutex_unlock c i {| at_pc := Idle; todo := todo th |}
      end
  end.

(** A schedule names, move after move, the thread that runs and the
    answer of [calloc]; a thread that waits for the lock or has
    finished lets its turn pass.  [None]: the process has crashed. *)
Fixpoint run_threads (ino : Z) (sched : list (nat * bool)) (c : config)
    : option config :=
  match sched with
  | [] => Some c
  | (i, calloc_ok) :: sched' =>
      match thread_step ino calloc_ok i c with
      | Next c' => run_threads ino sched' c'
      | Blocked => run_threads ino sched' c
      | Crashed => None
      end
  end.

(** [N] threads, thread [i] with [rounds !! i] rounds to run, on an
    empty table. *)
Definition start (rounds : list nat) : config :=
  {| lock := None; table := ∅;
     threads := map (fun f => {| at_pc := Idle; todo := f |}) rounds |}.

Definition finished_thread (th : thread) : Prop :=
  match at_pc th, todo th with
  | Idle, O => True
  | _, _ => False
  end.

Definition finished (c : config) : Prop :=
  Forall finished_thread (threads c).

(** References of the inode that a thread has, as the table counts
    them: from the store of [++bfi->open_count] to the store of
    [bfi->open_count -= 1]. *)
Definition refs (p : pc) : Z :=
  match p with
  | GetRefOut _ | Opened | PutLocked | PutGot _ | PutLoaded _ _ => 1
  | _ => 0
  end.

Fixpoint total (ths : list thread) : Z :=
  match ths with
  | [] => 0
  | th :: ths' => refs (at_pc th) + total ths'
  end.

(** Inside a critical section. *)
Definition inside (p : pc) : Prop :=
  match p with
  | Idle | Opened => False
  | _ => True
  end.

(** The entry exists and counts [c] references, possibly none: the
    state between the creation of an entry and the first increment,
    and between the last decrement and the removal. *)
Definition counts (t : rhashtable) (ino c : Z) : Prop :=
  exists e, t !! ino = Some e /\ open_count e = c.

(** What the lock holder at [p] finds in the table when the threads
    have [c] references together. *)
Definition table_at (p : pc) (t : rhashtable) (ino c : Z) : Prop :=
  match p with
  | Idle | Opened => False
  | GetRefLocked | PutLocked | PutOut _ => holds t ino c
  | GetRefGot bfi => bfi = Entry ino /\ counts t ino c
  | GetRefLoaded bfi v => bfi = Entry ino /\ counts t ino c /\ v = c
  | GetRefOut bfi | PutGot bfi => bfi = Entry ino /\ holds t ino c
  | PutLoaded bfi v => bfi = Entry ino /\ holds t ino c /\ v = c
  | PutStored bfi => bfi = Entry ino /\ counts t ino c
  end.

(** No schedule entry says that [calloc] fails. *)
Definition with_memory (sched : list (nat * bool)) : Prop :=
  Forall (fun m => snd m = true) sched.

(** The invariant of the lock: only its holder is inside a critical
    section, and the table accounts for the references of all
    threads. *)
Definition lock_inv (ino : Z) (c : config) : Prop :=
  (forall j th, threads c !! j = Some th -> inside (at_pc th) -> lock c = Some j) /\
  match lock c with
  | None => holds (table c) ino (total (threads c))
  | Some i =>
      exists th, threads c !! i = Some th /\
                 table_at (at_pc th) (table c) ino (total (threads c))
  end.

(** Moves left to a thread: eleven per round. *)
Definition pc_work (p : pc) : nat :=
  match p with
  | Idle => 0
  | GetRefLocked => 10
  | GetRefGot _ => 9
  | GetRefLoaded _ _ => 8
  | GetRefOut _ => 7
  | Opened => 6
  | PutLocked => 5
  | PutGot _ => 4
  | PutLoaded _ _ => 3
  | PutStored _ => 2
  | PutOut _ => 1
  end.

Definition thread_work (th : thread) : nat :=
  (11 * todo th + pc_work (at_pc th))%nat.

Fixpoint work (ths : list thread) : nat :=
  match ths with
  | [] => O
  | th :: ths' => (thread_work th + work ths')%nat
  end.

(** * Properties *)

(** The scenario of the specification on inode 42. *)
Example scenario_42 :
  (let* _ := bf_inode_get_ref true 42 in
   let* _ := bf_inode_get_ref true 42 in
   let* a := bf_inode_unlink 42 in
   let* b := bf_inode_put true 42 1 in
   let* c := bf_inode_put true 42 1 in
   ret (a, b, c)) ∅ = Ret (false, false, true) ∅.
Proof. vm_compute. reflexivity. Qed.

(** ** The operations, case by case *)

Ltac run_monad :=
  unfold bf_inode_get, bf_inode_get_ref, bf_inode_put, bf_inode_unlink,
    __bf_inode_get, rhashtable_lookup_fast, rhashtable_lookup_insert_fast,
    rhashtable_remove_fast, load, store, BUG_ON, bind, ret; simpl.

Ltac walk H :=
  run_monad;
  repeat first [rewrite H | rewrite lookup_insert_eq | progress simpl].

Section Cases.
Context (t : rhashtable) (ino : Z).

Lemma get_present ok e :
  t !! ino = Some e -> bf_inode_get ok ino t = Ret (Entry ino) t.
Proof. intros H. walk H. reflexivity. Qed.

Lemma get_absent :
  t !! ino = None ->
  bf_inode_get true ino t = Ret (Entry ino) (<[ino := new_bf_inode ino]> t).
Proof. intros H. walk H. reflexivity. Qed.

Lemma get_enomem :
  t !! ino = None ->
  bf_inode_get false ino t = Ret (ERR_PTR (- ENOMEM)) t.
Proof. intros H. walk H. reflexivity. Qed.

Lemma get_ref_present ok e :
  t !! ino = Some e ->
  bf_inode_get_ref ok ino t =
    Ret (Entry ino)
        (<[ino := set_open_count (wrap64 (open_count e + 1)) e]> t).
Proof.
  intros H. walk H. reflexivity.
Qed.

Lemma get_ref_absent :
  t !! ino = None ->
  bf_inode_get_ref true ino t =
    Ret (Entry ino) (<[ino := set_open_count 1 (new_bf_inode ino)]> t).
Proof.
  intros H. walk H.
  walk H.
  rewrite insert_insert_eq. reflexivity.
Qed.

Lemma get_ref_enomem :
  t !! ino = None ->
  bf_inode_get_ref false ino t = Ret (ERR_PTR (- ENOMEM)) t.
Proof. intros H. walk H. reflexivity. Qed.

Lemma unlink_present e :
  t !! ino = Some e ->
  bf_inode_unlink ino t = Ret false (<[ino := set_unlinked true e]> t).
Proof. intros H. walk H. reflexivity. Qed.

Lemma unlink_absent :
  t !! ino = None -> bf_inode_unlink ino t = Ret true t.
Proof. intros H. walk H. reflexivity. Qed.

Lemma put_present ok e n :
  t !! ino = Some e ->
  bf_inode_put ok ino n t =
    if open_count e <? n then Bug
    else if 0 <? wrap64 (open_count e - n)
    then Ret false (<[ino := set_open_count (wrap64 (open_count e - n)) e]> t)
    else Ret (unlinked e) (delete ino t).
Proof.
  intros H. walk H.
  destruct (open_count e <? n); [reflexivity |].
  walk H.
  destruct (0 <? wrap64 (open_count e - n)); [reflexivity |].
  walk H.
  rewrite delete_insert_eq. reflexivity.
Qed.

Lemma put_absent n :
  t !! ino = None ->
  bf_inode_put true ino n t =
    if 0 <? n then Bug
    else if 0 <? wrap64 (0 - n)
    then Ret false
           (<[ino := set_open_count (wrap64 (0 - n)) (new_bf_inode ino)]> t)
    else Ret false t.
Proof.
  intros H. walk H.
  walk H.
  destruct (0 <? n); [reflexivity |].
  walk H.
  destruct (0 <? wrap64 (0 - n)).
  - rewrite insert_insert_eq. reflexivity.
  - walk H.
    rewrite !delete_insert_eq.
    rewrite delete_id by exact H. reflexivity.
Qed.

Lemma put_enomem n :
  t !! ino = None -> bf_inode_put false ino n t = Bug.
Proof. intros H. walk H. reflexivity. Qed.

End Cases.

(** ** Well-formed tables *)

Lemma wrap64_u64 x : u64 (wrap64 x).
Proof. unfold u64, wrap64. apply Z.mod_pos_bound. lia. Qed.

Lemma wrap64_id x : u64 x -> wrap64 x = x.
Proof. unfold u64, wrap64. intros H. apply Z.mod_small. exact H. Qed.

Lemma wf_empty : wf ∅.
Proof. intros k e H. rewrite lookup_empty in H. discriminate. Qed.

Lemma wf_insert t k e :
  wf t -> key e = k -> u64 (open_count e) -> wf (<[k := e]> t).
Proof.
  intros Hwf Hk Hc k' e' H.
  destruct (decide (k = k')) as [<- | Hne].
  - rewrite lookup_insert_eq in H. injection H as <-. split; assumption.
  - rewrite lookup_insert_ne in H by exact Hne. apply Hwf. exact H.
Qed.

Lemma wf_delete t k : wf t -> wf (delete k t).
Proof.
  intros Hwf k' e' H. apply lookup_delete_Some in H as [_ H].
  apply Hwf. exact H.
Qed.

(** ** One call, whatever the table *)

(** Case analysis on a call that returned: which call it was, whether
    the entry of its inode was there, and what [calloc] answered. *)
Ltac step_inv H :=
  match type of H with
  | step ?o ?t = Ret _ _ =>
      let E := fresh "E" in
      let Elt := fresh "Elt" in
      let Epos := fresh "Epos" in
      let ok := fresh "ok" in
      let ino := fresh "ino" in
      let n := fresh "n" in
      let e := fresh "e" in
      destruct o as [ok ino | ok ino | ino | ok ino n];
      unfold step, bind in H; simpl in H;
      (destruct (t !! ino) as [e |] eqn:E;
       [ first [ rewrite (get_present _ _ _ _ E) in H
               | rewrite (get_ref_present _ _ _ _ E) in H
               | rewrite (unlink_present _ _ _ E) in H
               | rewrite (put_present _ _ _ _ _ E) in H;
                 destruct (open_count e <? n) eqn:Elt; [discriminate H |];
                 destruct (0 <? wrap64 (open_count e - n)) eqn:Epos ]
       | first [ rewrite (unlink_absent _ _ E) in H
               | destruct ok;
                 [ first [ rewrite (get_absent _ _ E) in H
                         | rewrite (get_ref_absent _ _ E) in H
                         | rewrite (put_absent _ _ _ E) in H;
                           destruct (0 <? n) eqn:Elt; [discriminate H |];
                           destruct (0 <? wrap64 (0 - n)) eqn:Epos ]
                 | first [ rewrite (get_enomem _ _ E) in H
                         | rewrite (get_ref_enomem _ _ E) in H
                         | rewrite (put_enomem _ _ _ E) in H;
                           discriminate H ] ] ] ]);
      inversion H; subst; clear H
  end.

(** The table after a call, key by key: the call touches the entry of
    its own inode only. *)
Lemma step_other o t r t' k :
  step o t = Ret r t' -> k <> op_ino o -> t' !! k = t !! k.
Proof.
  intros H Hne. step_inv H; simpl in Hne;
    first [ reflexivity
          | apply lookup_insert_ne; congruence
          | apply lookup_delete_ne; congruence ].
Qed.

Lemma step_wf o t r t' : step o t = Ret r t' -> wf t -> wf t'.
Proof.
  intros H Hwf. step_inv H;
    try assumption;
    try (apply wf_delete; assumption);
    try (apply wf_insert; [assumption | simpl; try apply (Hwf _ _ E); reflexivity
                          | simpl; first [ apply wrap64_u64
                                         | apply (Hwf _ _ E)
                                         | unfold u64; lia ] ]).
Qed.

Lemma run_wf ops : forall t t', run ops t = Ret tt t' -> wf t -> wf t'.
Proof.
  induction ops as [| o ops IH]; intros t t' H Hwf; simpl in H.
  - inversion H. subst. exact Hwf.
  - unfold bind in H. destruct (step o t) as [r t1 | |] eqn:Es;
      try discriminate.
    apply (IH t1 t' H). exact (step_wf _ _ _ _ Es Hwf).
Qed.

Lemma reachable_wf t : reachable t -> wf t.
Proof.
  intros (t0 & ops & Hinit & Hrun).
  apply (run_wf ops t0 t Hrun).
  unfold bf_inode_init in Hinit. simpl in Hinit. inversion Hinit.
  apply wf_empty.
Qed.

(** No call dereferences a dangling pointer. *)
Lemma step_no_fault o t : step o t <> Fault.
Proof.
  destruct o as [ok ino | ok ino | ino | ok ino n];
    unfold step, bind; simpl;
    destruct (t !! ino) as [e |] eqn:E.
  - rewrite (get_present _ _ _ _ E). discriminate.
  - destruct ok; [rewrite (get_absent _ _ E) | rewrite (get_enomem _ _ E)];
      discriminate.
  - rewrite (get_ref_present _ _ _ _ E). discriminate.
  - destruct ok;
      [rewrite (get_ref_absent _ _ E) | rewrite (get_ref_enomem _ _ E)];
      discriminate.
  - rewrite (unlink_present _ _ _ E). discriminate.
  - rewrite (unlink_absent _ _ E). discriminate.
  - rewrite (put_present _ _ _ _ _ E).
    destruct (open_count e <? n); [discriminate |].
    destruct (0 <? wrap64 (open_count e - n)); discriminate.
  - destruct ok; [rewrite (put_absent _ _ _ E) | rewrite (put_enomem _ _ _ E)];
      [| discriminate].
    destruct (0 <? n); [discriminate |].
    destruct (0 <? wrap64 (0 - n)); discriminate.
Qed.

(** ** mark_unlinked: [bf_inode_unlink] *)

(** C3.  [bf_inode_unlink ino] always returns; it returns [true] exactly
    when the table has no entry for [ino] at the call; it never creates
    an entry (the keys of the table are the same afterwards), and when
    no entry exists the table is unchanged. *)
Theorem unlink_true_iff_absent (t : rhashtable) (ino : Z) :
  exists b t',
    bf_inode_unlink ino t = Ret b t' /\
    (b = true <-> t !! ino = None) /\
    dom t' = dom t /\
    (t !! ino = None -> t' = t).
Proof.
  destruct (t !! ino) as [e |] eqn:E.
  - exists false, (<[ino := set_unlinked true e]> t).
    split; [apply unlink_present; exact E |].
    split; [split; discriminate |].
    split; [| discriminate].
    apply dom_insert_lookup_L. rewrite E. eauto.
  - exists true, t.
    split; [apply unlink_absent; exact E |].
    repeat split; reflexivity.
Qed.

Lemma unlink_true_iff_absent_99 :
  exists b t',
    bf_inode_unlink 99 ∅ = Ret b t' /\
    (b = true <-> (∅ : rhashtable) !! 99 = None) /\
    dom t' = dom (∅ : rhashtable) /\
    ((∅ : rhashtable) !! 99 = None -> t' = ∅).
Proof. exact (unlink_true_iff_absent ∅ 99). Defined.

(** ** get_ref under memory exhaustion *)

(** C7.  When [bf_inode_get_ref ino] has to allocate the entry (none
    exists) and [calloc] fails, it returns [ERR_PTR(-ENOMEM)] and leaves
    the table as it was: no counter has moved and no entry for [ino]
    exists.  Conversely an error pointer is returned in that case only. *)
Theorem get_ref_enomem_leaves_table (t : rhashtable) (ino : Z) :
  (t !! ino = None ->
   bf_inode_get_ref false ino t = Ret (ERR_PTR (- ENOMEM)) t /\
   IS_ERR (ERR_PTR (- ENOMEM)) = true) /\
  (forall ok p t',
     bf_inode_get_ref ok ino t = Ret p t' -> IS_ERR p = true ->
     ok = false /\ t !! ino = None /\ p = ERR_PTR (- ENOMEM) /\
     t' = t /\ t' !! ino = None).
Proof.
  split.
  - intros E. split; [apply get_ref_enomem; exact E | reflexivity].
  - intros ok p t' H Herr.
    destruct (t !! ino) as [e |] eqn:E.
    + rewrite (get_ref_present _ _ _ _ E) in H. inversion H; subst.
      discriminate Herr.
    + destruct ok.
      * rewrite (get_ref_absent _ _ E) in H. inversion H; subst.
        discriminate Herr.
      * rewrite (get_ref_enomem _ _ E) in H. inversion H; subst.
        repeat split; assumption || reflexivity.
Qed.

(** ** put: [bf_inode_put] *)

(** Only [bf_inode_unlink] raises the flag: a call that is not
    [bf_inode_unlink k] leaves an unflagged or absent entry of [k]
    unflagged or absent. *)
Lemma step_keeps_unflagged o t r t' k :
  step o t = Ret r t' -> o <> Unlink k ->
  (forall e, t !! k = Some e -> unlinked e = false) ->
  forall e', t' !! k = Some e' -> unlinked e' = false.
Proof.
  intros H Hno Hpre e' He'.
  destruct (decide (k = op_ino o)) as [-> | Hne].
  - step_inv H; simpl in *;
      try (apply (Hpre _ He'));
      try (rewrite lookup_insert_eq in He'; inversion He'; subst; simpl;
           first [ reflexivity | apply (Hpre _ E) ]);
      try congruence.
    rewrite lookup_delete_eq in He'. discriminate.
  - rewrite (step_other _ _ _ _ _ H Hne) in He'. apply (Hpre _ He').
Qed.

Lemma run_keeps_unflagged k ops :
  forall t t',
    run ops t = Ret tt t' -> Forall (fun o => o <> Unlink k) ops ->
    (forall e, t !! k = Some e -> unlinked e = false) ->
    forall e', t' !! k = Some e' -> unlinked e' = false.
Proof.
  induction ops as [| o ops IH]; intros t t' H Hall Hpre; simpl in H.
  - inversion H; subst. exact Hpre.
  - unfold bind in H.
    destruct (step o t) as [r t1 | |] eqn:Es; try discriminate.
    apply Forall_cons in Hall as [Ho Hall].
    apply (IH t1 t' H Hall).
    exact (step_keeps_unflagged _ _ _ _ _ Es Ho Hpre).
Qed.

(** C4.  Under the contract of put (the entry exists and holds at least
    [n] references): when the decrement leaves 0 the entry is removed
    and the flag it had is returned; when it leaves more than 0 the
    entry stays with the decremented counter and [false] is returned.
    If no [bf_inode_unlink ino] was called since the inode had no
    entry, a draining put returns [false]. *)
Theorem put_drains_or_keeps
    (t : rhashtable) (ino n : Z) (ok : bool) (e : bf_inode) :
  t !! ino = Some e -> u64 (open_count e) -> 0 <= n <= open_count e ->
  (open_count e - n = 0 ->
   bf_inode_put ok ino n t = Ret (unlinked e) (delete ino t)) /\
  (0 < open_count e - n ->
   bf_inode_put ok ino n t =
     Ret false (<[ino := set_open_count (open_count e - n) e]> t)) /\
  (open_count e - n = 0 ->
   forall t0 ops,
     t0 !! ino = None -> Forall (fun o => o <> Unlink ino) ops ->
     run ops t0 = Ret tt t ->
     bf_inode_put ok ino n t = Ret false (delete ino t)).
Proof.
  intros E Hc Hn.
  assert (Hlt : (open_count e <? n) = false) by (apply Z.ltb_ge; lia).
  assert (Hw : wrap64 (open_count e - n) = open_count e - n)
    by (apply wrap64_id; unfold u64 in *; lia).
  assert (Hdrain : open_count e - n = 0 ->
          bf_inode_put ok ino n t = Ret (unlinked e) (delete ino t)).
  { intros Hz. rewrite (put_present _ _ _ _ _ E), Hlt, Hw, Hz. reflexivity. }
  split; [exact Hdrain |]. split.
  - intros Hpos. rewrite (put_present _ _ _ _ _ E), Hlt, Hw.
    replace (0 <? open_count e - n) with true
      by (symmetry; apply Z.ltb_lt; exact Hpos).
    reflexivity.
  - intros Hz t0 ops Hfresh Hall Hrun.
    rewrite (Hdrain Hz). f_equal.
    apply (run_keeps_unflagged ino ops t0 t Hrun Hall); [| exact E].
    intros e0 He0. congruence.
Qed.

Lemma put_drains_or_keeps_42 :
  let e := {| key := 42; open_count := 2; unlinked := true |} in
  let t : rhashtable := {[ 42 := e ]} in
  (open_count e - 2 = 0 ->
   bf_inode_put true 42 2 t = Ret (unlinked e) (delete 42 t)) /\
  (0 < open_count e - 2 ->
   bf_inode_put true 42 2 t =
     Ret false (<[42 := set_open_count (open_count e - 2) e]> t)) /\
  (open_count e - 2 = 0 ->
   forall t0 ops,
     t0 !! 42 = None -> Forall (fun o => o <> Unlink 42) ops ->
     run ops t0 = Ret tt t ->
     bf_inode_put true 42 2 t = Ret false (delete 42 t)).
Proof.
  intros e t.
  apply (put_drains_or_keeps t 42 2 true e).
  - apply lookup_singleton_eq.
  - unfold u64. simpl. lia.
  - simpl. lia.
Defined.

(** C2, as the code has it.  [bf_inode_put ino n] stops the process at
    a [BUG_ON] exactly when the entry exists with fewer than [n]
    references, or no entry exists and either [n] is positive or the
    allocation of the entry fails; it never dereferences a dangling
    pointer, and in every other case it returns a boolean. *)
Theorem put_bug_iff (t : rhashtable) (ino n : Z) (ok : bool) :
  (bf_inode_put ok ino n t = Bug <->
   (exists e, t !! ino = Some e /\ open_count e < n) \/
   (t !! ino = None /\ (0 < n \/ ok = false))) /\
  bf_inode_put ok ino n t <> Fault.
Proof.
  destruct (t !! ino) as [e |] eqn:E.
  - rewrite (put_present _ _ _ _ _ E).
    destruct (open_count e <? n) eqn:Elt.
    + apply Z.ltb_lt in Elt. split; [| discriminate].
      split; [| reflexivity]. intros _. left. exists e. split; [reflexivity | lia].
    + apply Z.ltb_ge in Elt.
      destruct (0 <? wrap64 (open_count e - n)); (split; [| discriminate]);
        (split; [discriminate |]);
        intros [(e0 & He0 & Hlt) | [Hnone _]];
        try discriminate; inversion He0; subst; lia.
  - destruct ok.
    + rewrite (put_absent _ _ _ E).
      destruct (0 <? n) eqn:Elt.
      * apply Z.ltb_lt in Elt. split; [| discriminate].
        split; [| reflexivity]. intros _. right. split; [reflexivity | left; lia].
      * apply Z.ltb_ge in Elt.
        destruct (0 <? wrap64 (0 - n)); (split; [| discriminate]);
          (split; [discriminate |]);
          intros [(e0 & He0 & _) | [_ [Hpos | Hok]]];
          try discriminate; lia.
    + rewrite (put_enomem _ _ _ E). split; [| discriminate].
      split; [| reflexivity]. intros _. right. split; [reflexivity | right; reflexivity].
Qed.

(** C2 as stated fails: with no entry for inode 7, releasing 0
    references returns [false] and the process goes on. *)
Lemma release_nothing_on_missing_returns :
  (∅ : rhashtable) !! 7 = None /\
  bf_inode_put true 7 0 ∅ = Ret false ∅ /\
  bf_inode_put true 7 0 ∅ <> Bug.
Proof.
  split; [apply lookup_empty |].
  assert (H : bf_inode_put true 7 0 ∅ = Ret false ∅).
  { rewrite put_absent by apply lookup_empty. reflexivity. }
  split; [exact H | rewrite H; discriminate].
Qed.

(** C10, as the code has it.  With no entry for [ino] and an allocation
    that succeeds, [bf_inode_put ino 0] makes [__bf_inode_get] insert a
    fresh entry with [open_count = 0], passes the three [BUG_ON], removes
    the entry again and returns [false]: the table is as before. *)
Theorem put_zero_on_missing (t : rhashtable) (ino : Z) :
  t !! ino = None ->
  __bf_inode_get true ino t = Ret (Entry ino) (<[ino := new_bf_inode ino]> t) /\
  open_count (new_bf_inode ino) = 0 /\
  unlinked (new_bf_inode ino) = false /\
  bf_inode_put true ino 0 t = Ret false t.
Proof.
  intros E. split; [apply (get_absent _ _ E) |].
  split; [reflexivity |]. split; [reflexivity |].
  rewrite (put_absent _ _ _ E). reflexivity.
Qed.

Lemma put_zero_on_missing_7 :
  __bf_inode_get true 7 ∅ = Ret (Entry 7) (<[7 := new_bf_inode 7]> ∅) /\
  open_count (new_bf_inode 7) = 0 /\
  unlinked (new_bf_inode 7) = false /\
  bf_inode_put true 7 0 ∅ = Ret false ∅.
Proof. apply (put_zero_on_missing ∅ 7). apply lookup_empty. Defined.

(** C10 as stated fails: when [calloc] returns no memory the call does
    reach a fatal assertion, [BUG_ON(IS_ERR(bfi))]. *)
Lemma release_nothing_without_memory_bugs :
  (∅ : rhashtable) !! 7 = None /\ bf_inode_put false 7 0 ∅ = Bug.
Proof. split; [apply lookup_empty | apply put_enomem, lookup_empty]. Qed.

(** ** Removal of entries *)

(** C5.  In a reachable table, a call that returns makes the entry of
    [k] disappear exactly when the call is a put on [k] whose decrement
    leaves 0 references; after any other call the entry is still
    there, in particular whenever references remain. *)
Theorem removed_iff_put_drains
    (t : rhashtable) (o : op) (r : retval) (t' : rhashtable)
    (k : Z) (e : bf_inode) :
  reachable t -> op_wf o -> step o t = Ret r t' -> t !! k = Some e ->
  (t' !! k = None <->
   exists ok n, o = Put ok k n /\ open_count e - n = 0) /\
  (is_Some (t' !! k) \/ exists ok, o = Put ok k (open_count e)).
Proof.
  intros Hreach Hargs H He.
  destruct (reachable_wf _ Hreach _ _ He) as [_ Hc]. unfold u64 in Hc.
  assert (Hiff : t' !! k = None <->
                 exists ok n, o = Put ok k n /\ open_count e - n = 0).
  { destruct (decide (k = op_ino o)) as [-> | Hne].
    - step_inv H; simpl in *; rewrite He in E; try discriminate E;
        inversion E; subst; clear E;
        try (rewrite ?lookup_insert_eq, ?He; split;
             [ discriminate | intros (? & ? & ? & ?); discriminate ]).
      + rewrite lookup_insert_eq. split; [discriminate |].
        intros (ok' & n' & Ho & Hz). inversion Ho; subst.
        rewrite Hz in Epos. discriminate Epos.
      + rewrite lookup_delete_eq. split; [| reflexivity]. intros _.
        exists ok, n. split; [reflexivity |].
        apply Z.ltb_ge in Elt, Epos. destruct Hargs as [_ Hn].
        unfold u64 in Hn.
        rewrite wrap64_id in Epos by (unfold u64; lia). lia.
    - rewrite (step_other _ _ _ _ _ H Hne), He. split; [discriminate |].
      intros (ok' & n' & -> & _). simpl in Hne. congruence. }
  split; [exact Hiff |].
  destruct (t' !! k) as [e' |] eqn:E'.
  - left. eexists. reflexivity.
  - right. destruct (proj1 Hiff eq_refl) as (ok' & n' & -> & Hz).
    exists ok'. f_equal. lia.
Qed.

Lemma removed_iff_put_drains_42 :
  let e := set_open_count 1 (new_bf_inode 42) in
  let t : rhashtable := <[42 := e]> ∅ in
  (delete 42 t !! 42 = None <->
   exists ok n, Put true 42 1 = Put ok 42 n /\ open_count e - n = 0) /\
  (is_Some (delete 42 t !! 42) \/
   exists ok, Put true 42 1 = Put ok 42 (open_count e)).
Proof.
  intros e t.
  apply (removed_iff_put_drains t (Put true 42 1) (RBool false)).
  - exists ∅, [GetRef true 42]. split; [reflexivity |].
    simpl. unfold bind, step, bind.
    rewrite get_ref_absent by apply lookup_empty. reflexivity.
  - simpl. unfold u64. lia.
  - unfold step, bind.
    rewrite (put_present _ _ true e 1) by apply lookup_insert_eq.
    reflexivity.
  - apply lookup_insert_eq.
Defined.

(** ** The unlinked flag *)

(** C6.  Across any call that returns: an entry that the call creates
    has [unlinked = false], and an entry whose flag is set and that is
    still in the table afterwards has its flag set.  So the flag of a
    live entry never goes back to [false], and a key created again
    after its entry was removed starts unflagged. *)
Theorem unlinked_monotone
    (t : rhashtable) (o : op) (r : retval) (t' : rhashtable) (k : Z) :
  step o t = Ret r t' ->
  (t !! k = None -> forall e', t' !! k = Some e' -> unlinked e' = false) /\
  (forall e e',
     t !! k = Some e -> unlinked e = true ->
     t' !! k = Some e' -> unlinked e' = true).
Proof.
  intros H.
  destruct (decide (k = op_ino o)) as [-> | Hne].
  - split.
    + intros Hnone e' He'.
      step_inv H; simpl in *; try congruence;
        rewrite lookup_insert_eq in He'; inversion He'; reflexivity.
    + intros e0 e' He0 Hflag He'.
      step_inv H; simpl in *; try congruence;
        try (rewrite lookup_insert_eq in He'; inversion He'; subst; simpl;
             congruence).
      rewrite lookup_delete_eq in He'. discriminate.
  - rewrite (step_other _ _ _ _ _ H Hne). split; congruence.
Qed.

Lemma unlinked_monotone_42 :
  let e := {| key := 42; open_count := 1; unlinked := true |} in
  let t : rhashtable := <[42 := e]> ∅ in
  let t' : rhashtable := <[42 := set_open_count (wrap64 (1 + 1)) e]> t in
  (t !! 42 = None -> forall e', t' !! 42 = Some e' -> unlinked e' = false) /\
  (forall e0 e',
     t !! 42 = Some e0 -> unlinked e0 = true ->
     t' !! 42 = Some e' -> unlinked e' = true).
Proof.
  intros e t t'.
  apply (unlinked_monotone t (GetRef true 42) (RPtr (Entry 42))).
  unfold step, bind.
  rewrite (get_ref_present _ _ true e) by apply lookup_insert_eq.
  reflexivity.
Defined.

(** ** get without get_ref *)

(** A call that neither takes nor releases references of [k] keeps the
    entry of [k] in the table and its counter as it is. *)
Lemma step_keeps_count o t r t' k e :
  step o t = Ret r t' -> ~ counts_on k o -> t !! k = Some e ->
  exists e', t' !! k = Some e' /\ open_count e' = open_count e.
Proof.
  intros H Hno He.
  destruct (decide (k = op_ino o)) as [-> | Hne].
  - step_inv H; simpl in *; try (exfalso; apply Hno; reflexivity);
      rewrite He in E; try discriminate E; inversion E; subst; clear E.
    + exists e0. split; [exact He | reflexivity].
    + eexists. split; [apply lookup_insert_eq | reflexivity].
  - rewrite (step_other _ _ _ _ _ H Hne). exists e. split; [exact He | reflexivity].
Qed.

Lemma run_keeps_count k ops :
  forall t t' e,
    run ops t = Ret tt t' -> Forall (fun o => ~ counts_on k o) ops ->
    t !! k = Some e ->
    exists e', t' !! k = Some e' /\ open_count e' = open_count e.
Proof.
  induction ops as [| o ops IH]; intros t t' e H Hall He; simpl in H.
  - inversion H; subst. exists e. split; [exact He | reflexivity].
  - unfold bind in H.
    destruct (step o t) as [r t1 | |] eqn:Es; try discriminate.
    apply Forall_cons in Hall as [Ho Hall].
    destruct (step_keeps_count _ _ _ _ _ _ Es Ho He) as (e1 & He1 & Hc1).
    destruct (IH t1 t' e1 H Hall He1) as (e' & He' & Hc').
    exists e'. split; [exact He' | congruence].
Qed.

(** Only a put takes an entry out of the table. *)
Lemma step_keeps_entry o t r t' k :
  step o t = Ret r t' -> ~ puts_on k o -> is_Some (t !! k) ->
  is_Some (t' !! k).
Proof.
  intros H Hno [e He].
  destruct (decide (k = op_ino o)) as [-> | Hne].
  - step_inv H; simpl in *; try (exfalso; apply Hno; reflexivity);
      rewrite ?lookup_insert_eq; eauto.
  - rewrite (step_other _ _ _ _ _ H Hne). eauto.
Qed.

Lemma run_keeps_entry k ops :
  forall t t',
    run ops t = Ret tt t' -> Forall (fun o => ~ puts_on k o) ops ->
    is_Some (t !! k) -> is_Some (t' !! k).
Proof.
  induction ops as [| o ops IH]; intros t t' H Hall He; simpl in H.
  - inversion H; subst. exact He.
  - unfold bind in H.
    destruct (step o t) as [r t1 | |] eqn:Es; try discriminate.
    apply Forall_cons in Hall as [Ho Hall].
    apply (IH t1 t' H Hall). exact (step_keeps_entry _ _ _ _ _ Es Ho He).
Qed.

(** C9.  On an inode without entry, a [bf_inode_get] that gets its
    memory inserts an entry with [open_count = 0].  Whatever calls
    follow, the entry stays in the table as long as none of them is a
    put on that inode; as long as none is a get_ref or a put on it, the
    entry still has [open_count = 0], and [bf_inode_unlink] on the
    inode returns [false]. *)
Theorem get_leaves_idle_entry (t : rhashtable) (ino : Z) :
  t !! ino = None ->
  exists t1,
    bf_inode_get true ino t = Ret (Entry ino) t1 /\
    (exists e1, t1 !! ino = Some e1 /\ open_count e1 = 0) /\
    (forall ops t2,
       Forall (fun o => ~ puts_on ino o) ops ->
       run ops t1 = Ret tt t2 -> is_Some (t2 !! ino)) /\
    (forall ops t2,
       Forall (fun o => ~ counts_on ino o) ops ->
       run ops t1 = Ret tt t2 ->
       (exists e2, t2 !! ino = Some e2 /\ open_count e2 = 0) /\
       exists t3, bf_inode_unlink ino t2 = Ret false t3).
Proof.
  intros E. exists (<[ino := new_bf_inode ino]> t).
  split; [apply get_absent; exact E |].
  split; [exists (new_bf_inode ino); split; [apply lookup_insert_eq | reflexivity] |].
  split.
  - intros ops t2 Hall Hrun.
    apply (run_keeps_entry ino ops _ t2 Hrun Hall).
    rewrite lookup_insert_eq. eauto.
  - intros ops t2 Hall Hrun.
    destruct (run_keeps_count ino ops _ t2 (new_bf_inode ino) Hrun Hall)
      as (e2 & He2 & Hc2); [apply lookup_insert_eq |].
    split; [exists e2; split; [exact He2 | exact Hc2] |].
    eexists. apply unlink_present. exact He2.
Qed.

Lemma get_leaves_idle_entry_99 :
  exists t1,
    bf_inode_get true 99 ∅ = Ret (Entry 99) t1 /\
    (exists e1, t1 !! 99 = Some e1 /\ open_count e1 = 0) /\
    (forall ops t2,
       Forall (fun o => ~ puts_on 99 o) ops ->
       run ops t1 = Ret tt t2 -> is_Some (t2 !! 99)) /\
    (forall ops t2,
       Forall (fun o => ~ counts_on 99 o) ops ->
       run ops t1 = Ret tt t2 ->
       (exists e2, t2 !! 99 = Some e2 /\ open_count e2 = 0) /\
       exists t3, bf_inode_unlink 99 t2 = Ret false t3).
Proof. apply (get_leaves_idle_entry ∅ 99). apply lookup_empty. Defined.

(** ** Reference counting along a sequence of calls *)

Lemma run_app ops1 ops2 t :
  run (ops1 ++ ops2) t =
    match run ops1 t with
    | Ret _ t1 => run ops2 t1
    | Bug => Bug
    | Fault => Fault
    end.
Proof.
  revert t. induction ops1 as [| o ops1 IH]; intros t; simpl.
  - reflexivity.
  - unfold bind. destruct (step o t) as [r t1 | |]; [apply IH | |]; reflexivity.
Qed.

Lemma acquired_app ops1 ops2 t :
  acquired (ops1 ++ ops2) t =
    acquired ops1 t +
    match run ops1 t with
    | Ret _ t1 => acquired ops2 t1
    | _ => 0
    end.
Proof.
  revert t. induction ops1 as [| o ops1 IH]; intros t; simpl.
  - reflexivity.
  - unfold bind. destruct (step o t) as [r t1 | |]; [| reflexivity ..].
    rewrite IH. lia.
Qed.

Lemma released_app ops1 ops2 :
  released (ops1 ++ ops2) = released ops1 + released ops2.
Proof.
  induction ops1 as [| o ops1 IH]; simpl; [reflexivity |].
  destruct o; rewrite IH; lia.
Qed.

Lemma acquired_one o t : acquired [o] t = gain o t.
Proof.
  unfold gain. simpl. destruct (step o t); [apply Z.add_0_r | reflexivity ..].
Qed.

Lemma gain_put ok ino n t : gain (Put ok ino n) t = 0.
Proof.
  unfold gain. destruct (step (Put ok ino n) t); reflexivity.
Qed.

(** One counting call on a table that accounts for [c] references:
    within the budget, and with memory for a put that has to allocate,
    the call returns and the table accounts for the new balance. *)
Lemma step_counts ino o t c :
  counts_on ino o -> holds t ino c ->
  (forall n, o = Put false ino n -> is_Some (t !! ino)) ->
  0 <= c + gain o t - released [o] < 2 ^ 64 ->
  exists r t',
    step o t = Ret r t' /\
    holds t' ino (c + gain o t - released [o]).
Proof.
  intros Hon Hholds Hmem Hbudget. unfold holds in Hholds.
  destruct o as [ok i | ok i | i | ok i n]; simpl in Hon;
    try contradiction; subst i.
  - (* get_ref *)
    unfold gain in *; unfold step, bind in *; simpl in Hbudget |- *.
    destruct (t !! ino) as [e |] eqn:E.
    + destruct Hholds as [Hc Hpos].
      rewrite (get_ref_present _ _ _ _ E) in *. simpl in *.
      eexists _, _. split; [reflexivity |].
      unfold holds. rewrite lookup_insert_eq. simpl.
      rewrite wrap64_id by (unfold u64; lia). lia.
    + destruct ok.
      * rewrite (get_ref_absent _ _ E) in *. simpl in *.
        eexists _, _. split; [reflexivity |].
        unfold holds. rewrite lookup_insert_eq. simpl. lia.
      * rewrite (get_ref_enomem _ _ E) in *. simpl in *.
        eexists _, _. split; [reflexivity |].
        unfold holds. rewrite E. lia.
  - (* put *)
    rewrite gain_put in *. simpl in Hbudget |- *. unfold step, bind.
    destruct (t !! ino) as [e |] eqn:E.
    + destruct Hholds as [Hc Hpos].
      rewrite (put_present _ _ _ _ _ E).
      replace (open_count e <? n) with false
        by (symmetry; apply Z.ltb_ge; lia).
      rewrite wrap64_id by (unfold u64; lia).
      destruct (0 <? open_count e - n) eqn:Epos;
        eexists _, _; (split; [reflexivity |]); unfold holds.
      * rewrite lookup_insert_eq. simpl. apply Z.ltb_lt in Epos. lia.
      * rewrite lookup_delete_eq. apply Z.ltb_ge in Epos. lia.
    + destruct ok.
      * rewrite (put_absent _ _ _ E).
        replace (0 <? n) with false by (symmetry; apply Z.ltb_ge; lia).
        rewrite wrap64_id by (unfold u64; lia).
        destruct (0 <? 0 - n) eqn:Epos;
          eexists _, _; (split; [reflexivity |]); unfold holds.
        -- rewrite lookup_insert_eq. simpl. apply Z.ltb_lt in Epos. lia.
        -- rewrite E. apply Z.ltb_ge in Epos. lia.
      * destruct (Hmem n eq_refl) as [e He]. congruence.
Qed.

(** C1, as the code has it.  Take an inode without entry and any
    sequence of get_ref and put calls on it such that, at every prefix,
    the references released do not exceed the references acquired, the
    difference fits the 64-bit counter, and a put that finds no entry
    gets the memory to allocate one.  Then every call returns, and
    after the sequence the entry's [open_count] is acquired minus
    released, and the entry exists exactly when that is positive. *)
Theorem open_count_is_balance (ino : Z) (t0 : rhashtable) (ops : list op) :
  t0 !! ino = None ->
  Forall (counts_on ino) ops ->
  (forall k : nat,
     0 <= acquired (take k ops) t0 - released (take k ops) < 2 ^ 64) ->
  (forall (k : nat) n t,
     ops !! k = Some (Put false ino n) ->
     run (take k ops) t0 = Ret tt t -> is_Some (t !! ino)) ->
  exists t',
    run ops t0 = Ret tt t' /\
    (forall e, t' !! ino = Some e ->
               open_count e = acquired ops t0 - released ops) /\
    (is_Some (t' !! ino) <-> 0 < acquired ops t0 - released ops).
Proof.
  intros Hfresh Hall Hpre Hmem.
  assert (Hinv : exists t',
            run ops t0 = Ret tt t' /\
            holds t' ino (acquired ops t0 - released ops)).
  { induction ops as [| o ops IH] using rev_ind.
    - exists t0. split; [reflexivity |]. unfold holds. rewrite Hfresh.
      reflexivity.
    - apply Forall_app in Hall as [Hall Ho].
      rewrite Forall_singleton in Ho.
      destruct IH as (t1 & Hrun & Hholds); [exact Hall | | |].
      + intros k. destruct (decide (k <= length ops)%nat) as [Hk | Hk].
        * rewrite <- (take_app_le ops [o] k) by exact Hk. apply Hpre.
        * rewrite (take_ge ops k) by lia.
          rewrite <- (take_app_length ops [o]). apply Hpre.
      + intros k n t Hk Hr. apply (Hmem k n t).
        * apply lookup_app_l_Some. exact Hk.
        * apply lookup_lt_Some in Hk.
          rewrite take_app_le by lia. exact Hr.
      + specialize (Hpre (S (length ops))).
        rewrite take_ge in Hpre by (rewrite length_app; simpl; lia).
        rewrite acquired_app, released_app, Hrun, acquired_one in Hpre.
        destruct (step_counts ino o t1 (acquired ops t0 - released ops))
          as (r & t' & Hstep & Hholds').
        * exact Ho.
        * exact Hholds.
        * intros n ->. apply (Hmem (length ops) n t1).
          -- apply list_lookup_middle. reflexivity.
          -- rewrite take_app_length. exact Hrun.
        * lia.
        * exists t'. split.
          -- rewrite run_app, Hrun. simpl. unfold bind. rewrite Hstep.
             reflexivity.
          -- rewrite acquired_app, released_app, Hrun, acquired_one.
             replace (acquired ops t0 + gain o t1 -
                      (released ops + released [o]))
               with (acquired ops t0 - released ops + gain o t1 -
                     released [o]) by lia.
             exact Hholds'. }
  destruct Hinv as (t' & Hrun & Hholds). exists t'.
  split; [exact Hrun |]. unfold holds in Hholds.
  destruct (t' !! ino) as [e |].
  - destruct Hholds as [Hc Hpos]. split.
    + intros e0 He0. inversion He0; subst. exact Hc.
    + split; [intros _; exact Hpos | eauto].
  - split; [discriminate |].
    split; [intros [e He]; discriminate | lia].
Qed.

Lemma open_count_is_balance_42 :
  let ops := [GetRef true 42; GetRef false 42; Put false 42 1; Put false 42 1] in
  exists t',
    run ops ∅ = Ret tt t' /\
    (forall e, t' !! 42 = Some e ->
               open_count e = acquired ops ∅ - released ops) /\
    (is_Some (t' !! 42) <-> 0 < acquired ops ∅ - released ops).
Proof.
  intros ops. apply (open_count_is_balance 42 ∅ ops).
  - apply lookup_empty.
  - repeat constructor.
  - intros k.
    do 4 (destruct k as [| k]; [vm_compute; split; [discriminate | reflexivity] |]).
    rewrite take_ge by (simpl; lia).
    vm_compute; split; [discriminate | reflexivity].
  - intros k n t Hk Hr.
    do 2 (destruct k as [| k]; [discriminate Hk |]).
    destruct k as [| k].
    { vm_compute in Hr. inversion Hr. vm_compute. eauto. }
    destruct k as [| k].
    { vm_compute in Hr. inversion Hr. vm_compute. eauto. }
    discriminate Hk.
Defined.

(** C1 as stated fails: releasing 0 references of an inode that has no
    entry keeps released within acquired, yet the call stops the
    process when [calloc] returns no memory. *)
Lemma put_zero_breaks_balance :
  let ops := [Put false 42 0] in
  (∅ : rhashtable) !! 42 = None /\
  Forall (counts_on 42) ops /\
  (forall k : nat, released (take k ops) <= acquired (take k ops) ∅) /\
  run ops ∅ = Bug.
Proof.
  intros ops. split; [apply lookup_empty |].
  split; [repeat constructor |]. split.
  - intros k. destruct k as [| k]; [vm_compute; discriminate |].
    rewrite take_ge by (simpl; lia). vm_compute. discriminate.
  - unfold ops. simpl. unfold bind, step, bind.
    rewrite put_enomem by apply lookup_empty. reflexivity.
Qed.

(** The 64-bit counter wraps: [n + 1] successful get_ref calls on an
    inode without entry leave [open_count = (n + 1) mod 2^64]. *)
Lemma run_get_refs ino n (t : rhashtable) :
  t !! ino = None ->
  run (replicate (S n) (GetRef true ino)) t =
    Ret tt (<[ino := set_open_count (wrap64 (Z.of_nat (S n)))
                       (new_bf_inode ino)]> t).
Proof.
  intros E. induction n as [| n IH].
  - simpl. unfold bind. rewrite (get_ref_absent _ _ E). reflexivity.
  - rewrite replicate_S_end, run_app, IH. cbn [run].
    unfold bind, step, bind.
    rewrite (get_ref_present _ _ _ _ (lookup_insert_eq _ _ _)).
    rewrite insert_insert_eq. unfold ret.
    replace (wrap64 (Z.of_nat (S (S n))))
      with (wrap64 (wrap64 (Z.of_nat (S n)) + 1)); [reflexivity |].
    unfold wrap64. rewrite Zplus_mod_idemp_l. f_equal. lia.
Qed.

Lemma acquired_get_refs ino n :
  forall t : rhashtable, acquired (replicate n (GetRef true ino)) t = Z.of_nat n.
Proof.
  induction n as [| n IH]; intros t; [reflexivity |].
  cbn [replicate acquired]. unfold step, bind.
  destruct (t !! ino) as [e |] eqn:E.
  - rewrite (get_ref_present _ _ _ _ E). cbn [ret acquires IS_ERR]. rewrite IH. lia.
  - rewrite (get_ref_absent _ _ E). cbn [ret acquires IS_ERR]. rewrite IH. lia.
Qed.

Lemma released_get_refs ok ino n : released (replicate n (GetRef ok ino)) = 0.
Proof. induction n as [| n IH]; [reflexivity | exact IH]. Qed.

(** The bound on the balance is needed: after [2^64] successful
    get_ref calls and no put, released never exceeded acquired, the
    balance is [2^64], and the entry exists with [open_count = 0]. *)
Lemma get_ref_overflow :
  let ops := replicate (S (Z.to_nat (2 ^ 64 - 1))) (GetRef true 42) in
  (forall k : nat, released (take k ops) <= acquired (take k ops) ∅) /\
  acquired ops ∅ - released ops = 2 ^ 64 /\
  exists e, run ops ∅ = Ret tt (<[42 := e]> ∅) /\ open_count e = 0.
Proof.
  intros ops. unfold ops. split; [| split].
  - intros k. rewrite take_replicate, released_get_refs, acquired_get_refs.
    lia.
  - rewrite released_get_refs, acquired_get_refs.
    rewrite Nat2Z.inj_succ, Z2Nat.id by lia. lia.
  - eexists. split; [apply run_get_refs, lookup_empty |].
    unfold set_open_count, open_count.
    rewrite Nat2Z.inj_succ, Z2Nat.id by lia. reflexivity.
Qed.

(** ** Threads under the lock *)

Lemma total_insert ths i th th' :
  ths !! i = Some th ->
  total (<[i := th']> ths) = total ths - refs (at_pc th) + refs (at_pc th').
Proof.
  revert i. induction ths as [| x ths IH]; intros i H; [discriminate |].
  destruct i as [| i]; simpl in *.
  - inversion H; subst. lia.
  - rewrite (IH i H). lia.
Qed.

Lemma refs_bounds p : 0 <= refs p <= 1.
Proof. destruct p; simpl; lia. Qed.

Lemma total_others ths i th :
  ths !! i = Some th ->
  0 <= total ths - refs (at_pc th) <= Z.of_nat (length ths) - 1.
Proof.
  revert i. induction ths as [| x ths IH]; intros i H; [discriminate |].
  destruct i as [| i]; simpl in H.
  - inversion H; subst. cbn [total length].
    assert (Hb : 0 <= total ths <= Z.of_nat (length ths)).
    { clear. induction ths as [| y ths IH]; cbn [total length]; [lia |].
      pose proof (refs_bounds (at_pc y)). lia. }
    lia.
  - cbn [total length]. specialize (IH i H).
    pose proof (refs_bounds (at_pc x)). lia.
Qed.

Lemma work_insert ths i th th' :
  ths !! i = Some th -> (thread_work th' < thread_work th)%nat ->
  (work (<[i := th']> ths) < work ths)%nat.
Proof.
  revert i. induction ths as [| x ths IH]; intros i H Hlt; [discriminate |].
  destruct i as [| i]; simpl in *.
  - inversion H; subst. lia.
  - specialize (IH i H Hlt). lia.
Qed.

Section Lock.
Context (ino : Z).

Lemma holder_at c i th :
  lock_inv ino c -> threads c !! i = Some th -> inside (at_pc th) ->
  lock c = Some i /\
  table_at (at_pc th) (table c) ino (total (threads c)).
Proof.
  intros [Hone Htab] Hi Hin.
  pose proof (Hone i th Hi Hin) as Hl. split; [exact Hl |].
  rewrite Hl in Htab. destruct Htab as (th0 & Hi0 & Hat).
  rewrite Hi in Hi0. inversion Hi0; subst. exact Hat.
Qed.

Lemma inv_lock_move c i th th' :
  lock_inv ino c -> threads c !! i = Some th -> lock c = None ->
  inside (at_pc th') -> refs (at_pc th') = refs (at_pc th) ->
  (forall t n, holds t ino n -> table_at (at_pc th') t ino n) ->
  lock_inv ino {| lock := Some i; table := table c;
                  threads := <[i := th']> (threads c) |}.
Proof.
  intros [Hone Htab] Hi Hfree Hin Hrefs Hat. rewrite Hfree in Htab.
  split; simpl.
  - intros j thj Hj Hinj. destruct (decide (i = j)) as [-> | Hne]; [reflexivity |].
    rewrite list_lookup_insert_ne in Hj by exact Hne.
    rewrite (Hone j thj Hj Hinj) in Hfree. discriminate.
  - exists th'. split.
    + apply list_lookup_insert_eq. apply (lookup_lt_Some _ _ _ Hi).
    + apply Hat. rewrite (total_insert _ _ _ _ Hi), Hrefs.
      replace (total (threads c) - refs (at_pc th) + refs (at_pc th))
        with (total (threads c)) by lia.
      exact Htab.
Qed.

Lemma inv_exec c i th th' t' :
  lock_inv ino c -> threads c !! i = Some th -> inside (at_pc th) ->
  table_at (at_pc th') t' ino
    (total (threads c) - refs (at_pc th) + refs (at_pc th')) ->
  lock_inv ino {| lock := lock c; table := t';
                  threads := <[i := th']> (threads c) |}.
Proof.
  intros Hinv Hi Hin Hat.
  destruct (holder_at c i th Hinv Hi Hin) as [Hl _].
  destruct Hinv as [Hone _]. split; simpl.
  - intros j thj Hj Hinj. destruct (decide (i = j)) as [-> | Hne]; [exact Hl |].
    rewrite list_lookup_insert_ne in Hj by exact Hne.
    exact (Hone j thj Hj Hinj).
  - rewrite Hl. exists th'. split.
    + apply list_lookup_insert_eq. apply (lookup_lt_Some _ _ _ Hi).
    + rewrite (total_insert _ _ _ _ Hi). exact Hat.
Qed.

Lemma inv_unlock c i th th' :
  lock_inv ino c -> threads c !! i = Some th -> inside (at_pc th) ->
  ~ inside (at_pc th') ->
  holds (table c) ino
    (total (threads c) - refs (at_pc th) + refs (at_pc th')) ->
  lock_inv ino {| lock := None; table := table c;
                  threads := <[i := th']> (threads c) |}.
Proof.
  intros Hinv Hi Hin Hout Hholds.
  destruct (holder_at c i th Hinv Hi Hin) as [Hl _].
  destruct Hinv as [Hone _]. split; simpl.
  - intros j thj Hj Hinj. destruct (decide (i = j)) as [-> | Hne].
    + rewrite list_lookup_insert_eq in Hj by apply (lookup_lt_Some _ _ _ Hi).
      inversion Hj; subst. contradiction.
    + rewrite list_lookup_insert_ne in Hj by exact Hne.
      rewrite (Hone j thj Hj Hinj) in Hl. congruence.
  - rewrite (total_insert _ _ _ _ Hi). exact Hholds.
Qed.

Ltac finish_move Hi :=
  split;
  [ cbn [threads]; rewrite length_insert; reflexivity
  | cbn [threads]; apply (work_insert _ _ _ _ Hi);
    unfold thread_work; cbn [todo at_pc pc_work]; lia ].

(** A move made with memory at hand keeps the invariant, never
    crashes, and uses up work. *)
Lemma thread_step_ok i c :
  lock_inv ino c -> Z.of_nat (length (threads c)) < 2 ^ 64 ->
  match thread_step ino true i c with
  | Next c' =>
      lock_inv ino c' /\
      length (threads c') = length (threads c) /\
      (work (threads c') < work (threads c))%nat
  | Blocked => True
  | Crashed => False
  end.
Proof.
  intros Hinv Hbound. unfold thread_step.
  destruct (threads c !! i) as [th |] eqn:Hi; [| exact I].
  pose proof (total_others _ _ _ Hi) as Hothers.
  destruct th as [p n]. destruct p; cbn [at_pc todo] in *.
  - (* Idle *)
    destruct n as [| n]; [exact I |]. unfold mutex_lock.
    destruct (lock c) eqn:Hl; [exact I |]. split; [| finish_move Hi].
    apply (inv_lock_move c i _ _ Hinv Hi Hl); [exact I | reflexivity |].
    intros t m H. exact H.
  - (* GetRefLocked *)
    destruct (holder_at c i _ Hinv Hi I) as [Hl Hat]. cbn in Hat, Hothers.
    unfold exec, holds in *.
    destruct (table c !! ino) as [e |] eqn:E.
    + pose proof (get_present _ _ true _ E) as Hg.
      unfold bf_inode_get in Hg. rewrite Hg. split; [| finish_move Hi].
      apply (inv_exec c i _ _ _ Hinv Hi I). cbn.
      split; [reflexivity |]. exists e. split; [exact E | lia].
    + pose proof (get_absent _ _ E) as Hg.
      unfold bf_inode_get in Hg. rewrite Hg. split; [| finish_move Hi].
      apply (inv_exec c i _ _ _ Hinv Hi I). cbn.
      split; [reflexivity |]. exists (new_bf_inode ino).
      split; [apply lookup_insert_eq | cbn; lia].
  - (* GetRefGot *)
    destruct (holder_at c i _ Hinv Hi I) as [Hl Hat]. cbn in Hat, Hothers.
    destruct Hat as [-> (e & He & Hc)]. cbn [IS_ERR].
    unfold exec, bind, load, ret. rewrite He. split; [| finish_move Hi].
    apply (inv_exec c i _ _ _ Hinv Hi I). cbn.
    split; [reflexivity |]. split; [exists e; split; [exact He | lia] | lia].
  - (* GetRefLoaded *)
    destruct (holder_at c i _ Hinv Hi I) as [Hl Hat]. cbn in Hat, Hothers.
    destruct Hat as [-> [(e & He & Hc) ->]].
    unfold exec, store. rewrite He. split; [| finish_move Hi].
    apply (inv_exec c i _ _ _ Hinv Hi I). cbn.
    split; [reflexivity |]. unfold holds. rewrite lookup_insert_eq. cbn.
    rewrite wrap64_id by (unfold u64; lia). lia.
  - (* GetRefOut *)
    destruct (holder_at c i _ Hinv Hi I) as [Hl Hat]. cbn in Hat, Hothers.
    destruct Hat as [_ Hat].
    unfold mutex_unlock. split; [| finish_move Hi].
    apply (inv_unlock c i _ _ Hinv Hi I); [intros [] |]. cbn.
    replace (total (threads c) - 1 + 1) with (total (threads c)) by lia.
    exact Hat.
  - (* Opened *)
    unfold mutex_lock.
    destruct (lock c) eqn:Hl; [exact I |]. split; [| finish_move Hi].
    apply (inv_lock_move c i _ _ Hinv Hi Hl); [exact I | reflexivity |].
    intros t m H. exact H.
  - (* PutLocked *)
    destruct (holder_at c i _ Hinv Hi I) as [Hl Hat]. cbn in Hat, Hothers.
    unfold exec, bind. pose proof Hat as Hholds. unfold holds in Hat.
    destruct (table c !! ino) as [e |] eqn:E; [| lia].
    pose proof (get_present _ _ true _ E) as Hg.
    unfold bf_inode_get in Hg. rewrite Hg. cbn. split; [| finish_move Hi].
    apply (inv_exec c i _ _ _ Hinv Hi I). cbn.
    split; [reflexivity |].
    replace (total (threads c) - 1 + 1) with (total (threads c)) by lia.
    exact Hholds.
  - (* PutGot *)
    destruct (holder_at c i _ Hinv Hi I) as [Hl Hat]. cbn in Hat, Hothers.
    destruct Hat as [-> Hat]. pose proof Hat as Hholds. unfold holds in Hat.
    destruct (table c !! ino) as [e |] eqn:E; [| lia].
    destruct Hat as [Hc Hpos].
    unfold exec, bind, load, BUG_ON, ret. rewrite E.
    replace (open_count e <? 1) with false by (symmetry; apply Z.ltb_ge; lia).
    split; [| finish_move Hi].
    apply (inv_exec c i _ _ _ Hinv Hi I). cbn.
    replace (total (threads c) - 1 + 1) with (total (threads c)) by lia.
    split; [reflexivity |]. split; [exact Hholds | exact Hc].
  - (* PutLoaded *)
    destruct (holder_at c i _ Hinv Hi I) as [Hl Hat]. cbn in Hat, Hothers.
    destruct Hat as [-> [Hat ->]]. unfold holds in Hat.
    destruct (table c !! ino) as [e |] eqn:E; [| lia].
    destruct Hat as [Hc Hpos].
    unfold exec, store. rewrite E. split; [| finish_move Hi].
    apply (inv_exec c i _ _ _ Hinv Hi I). cbn.
    split; [reflexivity |]. eexists. split; [apply lookup_insert_eq |]. cbn.
    rewrite wrap64_id by (unfold u64; lia). lia.
  - (* PutStored *)
    destruct (holder_at c i _ Hinv Hi I) as [Hl Hat]. cbn in Hat, Hothers.
    destruct Hat as [-> (e & He & Hc)].
    unfold exec, bind, load. rewrite He.
    destruct (0 <? open_count e) eqn:Epos.
    + unfold ret. split; [| finish_move Hi].
      apply (inv_exec c i _ _ _ Hinv Hi I). cbn.
      unfold holds. rewrite He. apply Z.ltb_lt in Epos. lia.
    + unfold rhashtable_remove_fast, BUG_ON, ret. rewrite He. cbn.
      split; [| finish_move Hi].
      apply (inv_exec c i _ _ _ Hinv Hi I). cbn.
      unfold holds. rewrite lookup_delete_eq. apply Z.ltb_ge in Epos. lia.
  - (* PutOut *)
    destruct (holder_at c i _ Hinv Hi I) as [Hl Hat]. cbn in Hat, Hothers.
    unfold mutex_unlock. split; [| finish_move Hi].
    apply (inv_unlock c i _ _ Hinv Hi I); [intros [] |]. cbn.
    replace (total (threads c) - 0 + 0) with (total (threads c)) by lia.
    exact Hat.
Qed.

Lemma inside_not_blocked ok i c th :
  threads c !! i = Some th -> inside (at_pc th) ->
  thread_step ino ok i c <> Blocked.
Proof.
  intros Hi Hin. unfold thread_step. rewrite Hi.
  destruct th as [p n]; destruct p; cbn [at_pc] in *; try contradiction;
    unfold exec, mutex_unlock;
    repeat match goal with
           | |- context [if ?b then _ else _] => destruct b
           | |- context [match ?m (table c) with _ => _ end] =>
               destruct (m (table c))
           end; discriminate.
Qed.

Lemma finished_thread_dec th : {finished_thread th} + {~ finished_thread th}.
Proof.
  unfold finished_thread. destruct (at_pc th); try (right; intros []).
  destruct (todo th); [left; exact I | right; intros []].
Qed.

Lemma finished_dec c : {finished c} + {~ finished c}.
Proof. apply Forall_dec. exact finished_thread_dec. Qed.

(** No deadlock: while some thread has not finished, some thread can
    move. *)
Lemma progress c :
  lock_inv ino c -> Z.of_nat (length (threads c)) < 2 ^ 64 ->
  ~ finished c ->
  exists i c', thread_step ino true i c = Next c'.
Proof.
  intros Hinv Hbound Hnot.
  destruct (lock c) as [i |] eqn:Hl.
  - pose proof Hinv as [_ Htab]. rewrite Hl in Htab.
    destruct Htab as (th & Hi & Hat).
    assert (Hin : inside (at_pc th)) by (destruct (at_pc th); cbn in *; tauto).
    pose proof (thread_step_ok i c Hinv Hbound) as Hok.
    pose proof (inside_not_blocked true i c th Hi Hin) as Hnb.
    exists i.
    destruct (thread_step ino true i c) as [c' | |];
      [exists c'; reflexivity | congruence | contradiction].
  - apply (neg_Forall_Exists_neg finished_thread_dec) in Hnot.
    apply Exists_exists in Hnot as (th & Hth & Hunf).
    apply list_elem_of_lookup in Hth as [i Hi].
    destruct Hinv as [Hone _].
    assert (Hout : ~ inside (at_pc th)).
    { intros Hin. rewrite (Hone i th Hi Hin) in Hl. discriminate. }
    exists i. unfold thread_step. rewrite Hi.
    destruct th as [p n]; destruct p; cbn in Hout, Hunf |- *;
      try (exfalso; apply Hout; exact I); unfold mutex_lock; rewrite Hl.
    + destruct n as [| n]; [exfalso; apply Hunf; exact I |]. eexists; reflexivity.
    + eexists; reflexivity.
Qed.

Lemma run_threads_inv sched :
  forall c,
    with_memory sched -> lock_inv ino c ->
    Z.of_nat (length (threads c)) < 2 ^ 64 ->
    exists c',
      run_threads ino sched c = Some c' /\ lock_inv ino c' /\
      length (threads c') = length (threads c).
Proof.
  induction sched as [| [i ok] sched IH]; intros c Hmem Hinv Hbound.
  - exists c. split; [reflexivity | split; [exact Hinv | reflexivity]].
  - apply Forall_cons in Hmem as [Hok Hmem]. cbn in Hok. subst ok.
    cbn [run_threads].
    pose proof (thread_step_ok i c Hinv Hbound) as Hstep.
    destruct (thread_step ino true i c) as [c1 | |]; [| | contradiction].
    + destruct Hstep as (Hinv1 & Hlen & _).
      destruct (IH c1 Hmem Hinv1) as (c' & Hrun & Hinv' & Hlen');
        [rewrite Hlen; exact Hbound |].
      exists c'. split; [exact Hrun | split; [exact Hinv' | congruence]].
    + exact (IH c Hmem Hinv Hbound).
Qed.

(** Every state under the invariant can be run to the end. *)
Lemma completes n :
  forall c,
    (work (threads c) <= n)%nat -> lock_inv ino c ->
    Z.of_nat (length (threads c)) < 2 ^ 64 ->
    exists sched c',
      with_memory sched /\ run_threads ino sched c = Some c' /\ finished c'.
Proof.
  induction n as [| n IH]; intros c Hwork Hinv Hbound;
    (destruct (finished_dec c) as [Hfin | Hnot];
     [ exists [], c; split; [constructor | split; [reflexivity | exact Hfin]] |]);
    destruct (progress c Hinv Hbound Hnot) as (i & c1 & Hstep);
    pose proof (thread_step_ok i c Hinv Hbound) as Hok;
    rewrite Hstep in Hok; destruct Hok as (Hinv1 & Hlen & Hless).
  - lia.
  - destruct (IH c1) as (sched & c' & Hmem & Hrun & Hfin);
      [lia | exact Hinv1 | rewrite Hlen; exact Hbound |].
    exists ((i, true) :: sched), c'. split; [| split].
    + constructor; [reflexivity | exact Hmem].
    + cbn [run_threads]. rewrite Hstep. exact Hrun.
    + exact Hfin.
Qed.

Lemma lock_inv_start rounds : lock_inv ino (start rounds).
Proof.
  split; cbn.
  - intros j th Hj Hin. rewrite list_lookup_fmap in Hj.
    destruct (rounds !! j); cbn in Hj; [| discriminate].
    inversion Hj; subst. contradiction.
  - replace (total _) with 0.
    + unfold holds. rewrite lookup_empty. reflexivity.
    + induction rounds as [| f rounds IH]; cbn; [reflexivity | exact IH].
Qed.

Lemma finished_no_entry c :
  lock_inv ino c -> finished c -> lock c = None /\ table c !! ino = None.
Proof.
  intros [_ Htab] Hfin.
  assert (Hidle : forall i th, threads c !! i = Some th -> at_pc th = Idle).
  { intros i th Hi. unfold finished in Hfin. rewrite Forall_lookup in Hfin.
    specialize (Hfin i th Hi). unfold finished_thread in Hfin.
    destruct (at_pc th); try contradiction. reflexivity. }
  destruct (lock c) as [i |].
  - destruct Htab as (th & Hi & Hat). rewrite (Hidle i th Hi) in Hat.
    contradiction.
  - split; [reflexivity |].
    assert (Hzero : total (threads c) = 0).
    { revert Hidle. generalize (threads c). clear.
      induction l as [| th l IH]; intros H; cbn; [reflexivity |].
      rewrite (H O th eq_refl). cbn. apply IH.
      intros i th' Hi. exact (H (S i) th' Hi). }
    rewrite Hzero in Htab. unfold holds in Htab.
    destruct (table c !! ino) as [e |]; [lia | reflexivity].
Qed.

End Lock.

(** ** The moves of a call and the call *)

Section Atomic.
Context (ino : Z).

Ltac one_move i Hlen :=
  cbn [replicate run_threads]; unfold thread_step at 1; cbn [threads];
  first [ rewrite list_lookup_insert_eq by (rewrite ?length_insert; exact Hlen)
        | match goal with H : _ !! i = Some _ |- _ => rewrite H end ];
  cbn [at_pc todo IS_ERR];
  unfold mutex_lock, mutex_unlock, exec; cbn [lock table threads];
  rewrite ?list_insert_insert_eq.

(** The moves of one call, made in a row by one thread, are the call:
    [bf_inode_get_ref]. *)
Lemma get_ref_in_a_row ok i c rest :
  lock c = None ->
  threads c !! i = Some {| at_pc := Idle; todo := S rest |} ->
  exists m,
    run_threads ino (replicate m (i, ok)) c =
      match bf_inode_get_ref ok ino (table c) with
      | Ret _ t' =>
          Some {| lock := None; table := t';
                  threads := <[i := {| at_pc := Opened; todo := rest |}]>
                               (threads c) |}
      | _ => None
      end.
Proof.
  intros Hl Hi. pose proof (lookup_lt_Some _ _ _ Hi) as Hlen.
  destruct (table c !! ino) as [e |] eqn:E; [| destruct ok].
  - exists 5%nat. rewrite (get_ref_present _ _ _ _ E).
    pose proof (get_present _ _ ok _ E) as Hg. unfold bf_inode_get in Hg.
    one_move i Hlen. rewrite Hl.
    one_move i Hlen. rewrite Hg.
    one_move i Hlen. unfold bind, load, ret. rewrite E.
    one_move i Hlen. unfold store. rewrite E.
    one_move i Hlen. reflexivity.
  - exists 5%nat. rewrite (get_ref_absent _ _ E).
    pose proof (get_absent _ _ E) as Hg. unfold bf_inode_get in Hg.
    one_move i Hlen. rewrite Hl.
    one_move i Hlen. rewrite Hg.
    one_move i Hlen. unfold bind, load, ret. rewrite lookup_insert_eq.
    one_move i Hlen. unfold store. rewrite lookup_insert_eq, insert_insert_eq.
    one_move i Hlen. reflexivity.
  - exists 4%nat. rewrite (get_ref_enomem _ _ E).
    pose proof (get_enomem _ _ E) as Hg. unfold bf_inode_get in Hg.
    one_move i Hlen. rewrite Hl.
    one_move i Hlen. rewrite Hg.
    one_move i Hlen. unfold ret.
    one_move i Hlen. reflexivity.
Qed.

(** [bf_inode_put] with one reference to release. *)
Lemma put_in_a_row ok i c rest :
  lock c = None ->
  threads c !! i = Some {| at_pc := Opened; todo := rest |} ->
  exists m,
    run_threads ino (replicate m (i, ok)) c =
      match bf_inode_put ok ino 1 (table c) with
      | Ret _ t' =>
          Some {| lock := None; table := t';
                  threads := <[i := {| at_pc := Idle; todo := rest |}]>
                               (threads c) |}
      | _ => None
      end.
Proof.
  intros Hl Hi. pose proof (lookup_lt_Some _ _ _ Hi) as Hlen.
  destruct (table c !! ino) as [e |] eqn:E; [| destruct ok].
  - rewrite (put_present _ _ _ _ _ E).
    pose proof (get_present _ _ ok _ E) as Hg. unfold bf_inode_get in Hg.
    destruct (open_count e <? 1) eqn:Elt.
    + exists 3%nat.
      one_move i Hlen. rewrite Hl.
      one_move i Hlen. unfold bind. rewrite Hg. cbn.
      one_move i Hlen. unfold bind, load, BUG_ON. rewrite E, Elt. reflexivity.
    + exists 6%nat.
      one_move i Hlen. rewrite Hl.
      one_move i Hlen. unfold bind. rewrite Hg. cbn.
      one_move i Hlen. unfold bind, load, BUG_ON, ret. rewrite E, Elt.
      one_move i Hlen. unfold store. rewrite E.
      one_move i Hlen. unfold bind, load. rewrite lookup_insert_eq.
      cbn [open_count set_open_count unlinked].
      destruct (0 <? wrap64 (open_count e - 1)).
      * unfold ret. one_move i Hlen. reflexivity.
      * unfold rhashtable_remove_fast. rewrite lookup_insert_eq. cbn.
        one_move i Hlen. rewrite delete_insert_eq. reflexivity.
  - exists 3%nat. rewrite (put_absent _ _ _ E). cbn.
    pose proof (get_absent _ _ E) as Hg. unfold bf_inode_get in Hg.
    one_move i Hlen. rewrite Hl.
    one_move i Hlen. unfold bind. rewrite Hg. cbn.
    one_move i Hlen. unfold bind, load, BUG_ON. rewrite lookup_insert_eq.
    reflexivity.
  - exists 2%nat. rewrite (put_enomem _ _ _ E).
    pose proof (get_enomem _ _ E) as Hg. unfold bf_inode_get in Hg.
    one_move i Hlen. rewrite Hl.
    one_move i Hlen. unfold bind. rewrite Hg. reflexivity.
Qed.

End Atomic.

(** ** Concurrent get_ref and put *)

(** C8, as the code has it.  [N] threads (fewer than [2^64]) run rounds
    of [bf_inode_get_ref(ino); bf_inode_put(ino, 1)] and every
    allocation succeeds.  Whatever the schedule: the process does not
    crash; as long as a thread has not finished some thread can move,
    and the run can be brought to the end; and once all threads have
    finished the lock is free and the table has no entry for [ino]. *)
Theorem threads_leave_no_entry
    (ino : Z) (rounds : list nat) (sched : list (nat * bool)) :
  Z.of_nat (length rounds) < 2 ^ 64 ->
  with_memory sched ->
  exists c,
    run_threads ino sched (start rounds) = Some c /\
    (finished c -> lock c = None /\ table c !! ino = None) /\
    (~ finished c -> exists i c', thread_step ino true i c = Next c') /\
    (exists sched' c',
       with_memory sched' /\ run_threads ino sched' c = Some c' /\
       finished c').
Proof.
  intros Hbound Hmem.
  assert (Hlen0 : length (threads (start rounds)) = length rounds)
    by (cbn; apply length_map).
  destruct (run_threads_inv ino sched (start rounds) Hmem
              (lock_inv_start ino rounds))
    as (c & Hrun & Hinv & Hlen); [rewrite Hlen0; exact Hbound |].
  assert (Hb : Z.of_nat (length (threads c)) < 2 ^ 64)
    by (rewrite Hlen, Hlen0; exact Hbound).
  exists c. split; [exact Hrun |]. split; [| split].
  - apply finished_no_entry. exact Hinv.
  - apply progress; assumption.
  - apply (completes ino (work (threads c))); [lia | exact Hinv | exact Hb].
Qed.

Lemma threads_leave_no_entry_two :
  let sched :=
    [(0, true); (1, true); (0, true); (0, true); (1, true); (0, true);
     (0, true); (1, true); (1, true); (0, true); (1, true); (1, true)]%nat in
  exists c,
    run_threads 42 sched (start [1; 1]%nat) = Some c /\
    (finished c -> lock c = None /\ table c !! 42 = None) /\
    (~ finished c -> exists i c', thread_step 42 true i c = Next c') /\
    (exists sched' c',
       with_memory sched' /\ run_threads 42 sched' c = Some c' /\
       finished c').
Proof.
  intros sched. apply (threads_leave_no_entry 42 [1; 1]%nat sched).
  - cbn. lia.
  - unfold sched, with_memory. repeat constructor.
Defined.

(** C8 as stated fails: one thread, one round, no memory.  The get_ref
    returns [ERR_PTR(-ENOMEM)], and the put that follows stops the
    process at [BUG_ON(IS_ERR(bfi))]. *)
Lemma thread_without_memory_crashes :
  run_threads 42 (replicate 6 (0%nat, false)) (start [1%nat]) = None.
Proof. vm_compute. reflexivity. Qed.

(** Two threads, one round each, thread 1 waiting for the lock while
    thread 0 is inside [bf_inode_get_ref]. *)
Example two_threads_in_turn :
  run_threads 42
    (replicate 3 (0, true) ++ replicate 4 (1, true) ++
     replicate 8 (0, true) ++ replicate 11 (1, true))%nat
    (start [1; 1]%nat)
  = Some {| lock := None; table := ∅;
            threads := [ {| at_pc := Idle; todo := 0 |};
                         {| at_pc := Idle; todo := 0 |} ] |}.
Proof. vm_compute. reflexivity. Qed.

(** * Further properties of the code *)

(** ** Lookup without reference: [bf_inode_get] *)

(** X1.  [bf_inode_get] returns an error pointer exactly when the inode
    has no entry and [calloc] fails; the pointer is then
    [ERR_PTR(-ENOMEM)] and the table is as it was.  In every other case
    it returns the pointer to the entry of the inode, and the entry is
    in the table afterwards. *)
Theorem get_error_iff_no_memory (t : rhashtable) (ino : Z) (ok : bool) :
  exists p t',
    bf_inode_get ok ino t = Ret p t' /\
    (IS_ERR p = true <-> t !! ino = None /\ ok = false) /\
    (IS_ERR p = true -> p = ERR_PTR (- ENOMEM) /\ t' = t) /\
    (IS_ERR p = false -> p = Entry ino /\ is_Some (t' !! ino)).
Proof.
  destruct (t !! ino) as [e |] eqn:E; [| destruct ok].
  - exists (Entry ino), t. split; [apply (get_present _ _ _ _ E) |].
    split; [split; [discriminate | intros [? _]; discriminate] |].
    split; [discriminate |]. intros _. split; [reflexivity | rewrite E; eauto].
  - exists (Entry ino), (<[ino := new_bf_inode ino]> t).
    split; [apply (get_absent _ _ E) |].
    split; [split; [discriminate | intros [_ ?]; discriminate] |].
    split; [discriminate |]. intros _.
    split; [reflexivity | rewrite lookup_insert_eq; eauto].
  - exists (ERR_PTR (- ENOMEM)), t. split; [apply (get_enomem _ _ E) |].
    split; [split; [intros _; split; reflexivity | reflexivity] |].
    split; [intros _; split; reflexivity | discriminate].
Qed.

(** X2.  [bf_inode_get] only ever adds the missing entry: after a get
    that returned an entry, a second get on the same inode, whatever
    [calloc] would answer, returns the same pointer and changes
    nothing. *)
Theorem get_twice (t t1 : rhashtable) (ino : Z) (ok ok' : bool) (p : bfi_ptr) :
  bf_inode_get ok ino t = Ret p t1 -> IS_ERR p = false ->
  bf_inode_get ok' ino t1 = Ret p t1.
Proof.
  intros H Hp.
  destruct (t !! ino) as [e |] eqn:E; [| destruct ok].
  - rewrite (get_present _ _ _ _ E) in H. inversion H; subst.
    apply (get_present _ _ _ _ E).
  - rewrite (get_absent _ _ E) in H. inversion H; subst.
    apply (get_present _ _ _ (new_bf_inode ino)). apply lookup_insert_eq.
  - rewrite (get_enomem _ _ E) in H. inversion H; subst. discriminate Hp.
Qed.

Lemma get_twice_42 :
  bf_inode_get false 42 (<[42 := new_bf_inode 42]> ∅) =
    Ret (Entry 42) (<[42 := new_bf_inode 42]> ∅).
Proof.
  apply (get_twice ∅ _ 42 true false (Entry 42)).
  - apply get_absent, lookup_empty.
  - reflexivity.
Defined.

(** X16.  [bf_inode_get] reads: every entry of the table is in the
    table afterwards, unchanged, and the only entry that can be new is
    the one of the inode asked for, with [open_count = 0] and
    [unlinked = false]. *)
Theorem get_preserves_entries
    (t t' : rhashtable) (ino : Z) (ok : bool) (p : bfi_ptr) :
  bf_inode_get ok ino t = Ret p t' ->
  (forall k e, t !! k = Some e -> t' !! k = Some e) /\
  (forall k e', t' !! k = Some e' ->
     t !! k = Some e' \/
     (k = ino /\ t !! ino = None /\
      key e' = ino /\ open_count e' = 0 /\ unlinked e' = false)).
Proof.
  intros H. destruct (t !! ino) as [e |] eqn:E; [| destruct ok].
  - rewrite (get_present _ _ _ _ E) in H. inversion H; subst. split; auto.
  - rewrite (get_absent _ _ E) in H. inversion H; subst. split.
    + intros k e He. destruct (decide (ino = k)) as [<- | Hne]; [congruence |].
      rewrite lookup_insert_ne by exact Hne. exact He.
    + intros k e' He'. destruct (decide (ino = k)) as [<- | Hne].
      * rewrite lookup_insert_eq in He'. inversion He'; subst.
        right. repeat split.
      * rewrite lookup_insert_ne in He' by exact Hne. left. exact He'.
  - rewrite (get_enomem _ _ E) in H. inversion H; subst. split; auto.
Qed.

Lemma get_preserves_entries_42 :
  let t : rhashtable := <[7 := set_open_count 3 (new_bf_inode 7)]> ∅ in
  let t' : rhashtable := <[42 := new_bf_inode 42]> t in
  (forall k e, t !! k = Some e -> t' !! k = Some e) /\
  (forall k e', t' !! k = Some e' ->
     t !! k = Some e' \/
     (k = 42 /\ t !! 42 = None /\
      key e' = 42 /\ open_count e' = 0 /\ unlinked e' = false)).
Proof.
  intros t t'. apply (get_preserves_entries t t' 42 true (Entry 42)).
  apply get_absent. vm_compute. reflexivity.
Defined.

(** ** All calls *)

(** X3.  No sequence of calls dereferences a pointer that designates
    no live entry: every [bfi->...] in the file is reached with [bfi]
    pointing to an entry of the table. *)
Theorem run_never_faults (ops : list op) (t : rhashtable) :
  run ops t <> Fault.
Proof.
  revert t. induction ops as [| o ops IH]; intros t; simpl; [discriminate |].
  unfold bind. pose proof (step_no_fault o t) as Hs.
  destruct (step o t) as [r t1 | |]; [apply IH | discriminate | congruence].
Qed.

(** X4.  Calls touch the entry of their own inode only: a sequence of
    calls none of which is on inode [k] leaves the entry of [k], or
    its absence, as it was. *)
Theorem run_leaves_other_inodes
    (k : Z) (ops : list op) (t t' : rhashtable) :
  Forall (fun o => op_ino o <> k) ops ->
  run ops t = Ret tt t' ->
  t' !! k = t !! k.
Proof.
  revert t. induction ops as [| o ops IH]; intros t Hall H; simpl in H.
  - inversion H; subst. reflexivity.
  - unfold bind in H. destruct (step o t) as [r t1 | |] eqn:Es; try discriminate.
    apply Forall_cons in Hall as [Ho Hall].
    rewrite (IH t1 Hall H). apply (step_other _ _ _ _ _ Es). congruence.
Qed.

Lemma run_leaves_other_inodes_7 :
  let t : rhashtable := <[7 := set_open_count 3 (new_bf_inode 7)]> ∅ in
  (<[42 := set_unlinked true (set_open_count 1 (new_bf_inode 42))]> t) !! 7
  = t !! 7.
Proof.
  intros t.
  apply (run_leaves_other_inodes 7
           [GetRef true 42; GetRef true 42; Unlink 42; Put true 42 1] t).
  - repeat constructor; simpl; lia.
  - vm_compute. reflexivity.
Defined.

(** X5.  Every table that calls can produce after [bf_inode_init] has
    each entry filed under its own key, with an [open_count] in the
    range of [uint64_t]. *)
Theorem reachable_entries_keyed (t : rhashtable) (k : Z) (e : bf_inode) :
  reachable t -> t !! k = Some e ->
  key e = k /\ 0 <= open_count e < 2 ^ 64.
Proof.
  intros (t0 & ops & Hinit & Hrun) He.
  assert (Hwf : wf t).
  { apply (run_wf ops t0 t Hrun).
    unfold bf_inode_init in Hinit. simpl in Hinit. inversion Hinit.
    apply wf_empty. }
  exact (Hwf k e He).
Qed.

Lemma reachable_entries_keyed_42 :
  key (set_open_count 1 (new_bf_inode 42)) = 42 /\
  0 <= open_count (set_open_count 1 (new_bf_inode 42)) < 2 ^ 64.
Proof.
  apply (reachable_entries_keyed (<[42 := set_open_count 1 (new_bf_inode 42)]> ∅)).
  - exists ∅, [GetRef true 42]. split; [reflexivity |].
    simpl. unfold bind, step, bind.
    rewrite get_ref_absent by apply lookup_empty. reflexivity.
  - apply lookup_insert_eq.
Defined.

(** ** Taking and giving back a reference *)

(** X6.  A get_ref followed by a put of one reference gives the table
    back as it was and the put returns [false]: when the inode had no
    entry (and [calloc] gives memory), and when it had an entry with at
    least one reference and room for one more. *)
Theorem get_ref_put_round_trip (t : rhashtable) (ino : Z) (ok ok' : bool) :
  (t !! ino = None /\ ok = true) \/
  (exists e, t !! ino = Some e /\ 0 < open_count e < 2 ^ 64 - 1) ->
  (let* _ := bf_inode_get_ref ok ino in bf_inode_put ok' ino 1) t
  = Ret false t.
Proof.
  intros [[E ->] | (e & E & Hc)]; unfold bind.
  - rewrite (get_ref_absent _ _ E).
    rewrite (put_present _ _ _ _ _ (lookup_insert_eq _ _ _)). cbn.
    rewrite delete_insert_eq, delete_id by exact E. reflexivity.
  - rewrite (get_ref_present _ _ _ _ E).
    rewrite (put_present _ _ _ _ _ (lookup_insert_eq _ _ _)).
    cbn [open_count set_open_count key unlinked].
    rewrite (wrap64_id (open_count e + 1)) by (unfold u64; lia).
    replace (open_count e + 1 <? 1) with false by (symmetry; apply Z.ltb_ge; lia).
    replace (open_count e + 1 - 1) with (open_count e) by lia.
    rewrite wrap64_id by (unfold u64; lia).
    replace (0 <? open_count e) with true by (symmetry; apply Z.ltb_lt; lia).
    rewrite insert_insert_eq. f_equal.
    apply insert_id. rewrite E. f_equal. destruct e. reflexivity.
Qed.

Lemma get_ref_put_round_trip_42 :
  (let* _ := bf_inode_get_ref true 42 in bf_inode_put false 42 1) ∅
  = Ret false ∅.
Proof.
  apply (get_ref_put_round_trip ∅ 42 true false).
  left. split; [apply lookup_empty | reflexivity].
Defined.

(** X7.  An entry with [open_count = 0], as a bare [bf_inode_get]
    leaves it, does not survive the round trip: the get_ref takes it to
    1, the put of that reference removes it and returns its flag. *)
Theorem get_ref_put_consumes_idle_entry
    (t : rhashtable) (ino : Z) (ok ok' : bool) (e : bf_inode) :
  t !! ino = Some e -> open_count e = 0 ->
  (let* _ := bf_inode_get_ref ok ino in bf_inode_put ok' ino 1) t
  = Ret (unlinked e) (delete ino t).
Proof.
  intros E Hc. unfold bind.
  rewrite (get_ref_present _ _ _ _ E).
  rewrite (put_present _ _ _ _ _ (lookup_insert_eq _ _ _)).
  cbn [open_count set_open_count key unlinked]. rewrite Hc. cbn.
  rewrite delete_insert_eq. reflexivity.
Qed.

Lemma get_ref_put_consumes_idle_entry_42 :
  (let* _ := bf_inode_get_ref true 42 in bf_inode_put true 42 1)
    (<[42 := new_bf_inode 42]> ∅)
  = Ret (unlinked (new_bf_inode 42)) (delete 42 (<[42 := new_bf_inode 42]> ∅)).
Proof.
  apply (get_ref_put_consumes_idle_entry _ 42 true true (new_bf_inode 42)).
  - apply lookup_insert_eq.
  - reflexivity.
Defined.

(** X12.  Releasing 0 references of an inode that is open changes
    nothing and returns [false]. *)
Theorem put_nothing_on_open_entry
    (t : rhashtable) (ino : Z) (ok : bool) (e : bf_inode) :
  t !! ino = Some e -> 0 < open_count e < 2 ^ 64 ->
  bf_inode_put ok ino 0 t = Ret false t.
Proof.
  intros E Hc. rewrite (put_present _ _ _ _ _ E).
  replace (open_count e <? 0) with false by (symmetry; apply Z.ltb_ge; lia).
  replace (open_count e - 0) with (open_count e) by lia.
  rewrite wrap64_id by (unfold u64; lia).
  replace (0 <? open_count e) with true by (symmetry; apply Z.ltb_lt; lia).
  f_equal. apply insert_id. rewrite E. f_equal. destruct e. reflexivity.
Qed.

Lemma put_nothing_on_open_entry_42 :
  bf_inode_put true 42 0 (<[42 := set_open_count 2 (new_bf_inode 42)]> ∅)
  = Ret false (<[42 := set_open_count 2 (new_bf_inode 42)]> ∅).
Proof.
  apply (put_nothing_on_open_entry _ 42 true (set_open_count 2 (new_bf_inode 42))).
  - apply lookup_insert_eq.
  - cbn. lia.
Defined.

(** X13.  [bf_inode_get_ref] does not guard the counter: on an entry
    with [open_count = 2^64 - 1] it returns the entry with
    [open_count = 0], and releasing the reference just taken stops the
    process at [BUG_ON(bfi->open_count < release_count)]. *)
Theorem get_ref_wraps_at_max
    (t : rhashtable) (ino : Z) (ok ok' : bool) (e : bf_inode) :
  t !! ino = Some e -> open_count e = 2 ^ 64 - 1 ->
  exists t1,
    bf_inode_get_ref ok ino t = Ret (Entry ino) t1 /\
    t1 !! ino = Some (set_open_count 0 e) /\
    bf_inode_put ok' ino 1 t1 = Bug.
Proof.
  intros E Hc. eexists. split; [apply (get_ref_present _ _ _ _ E) |].
  rewrite Hc. change (wrap64 (2 ^ 64 - 1 + 1)) with 0.
  split; [apply lookup_insert_eq |].
  rewrite (put_present _ _ _ _ _ (lookup_insert_eq _ _ _)). reflexivity.
Qed.

Lemma get_ref_wraps_at_max_42 :
  let e := set_open_count (2 ^ 64 - 1) (new_bf_inode 42) in
  exists t1,
    bf_inode_get_ref true 42 (<[42 := e]> ∅) = Ret (Entry 42) t1 /\
    t1 !! 42 = Some (set_open_count 0 e) /\
    bf_inode_put true 42 1 t1 = Bug.
Proof.
  intros e. apply (get_ref_wraps_at_max _ 42 true true e).
  - apply lookup_insert_eq.
  - reflexivity.
Defined.

(** ** Unlinking *)

(** X8.  [bf_inode_unlink] is idempotent: a second call on the same
    inode returns what the first returned and leaves the table that
    the first left. *)
Theorem unlink_twice (t : rhashtable) (ino : Z) :
  (let* _ := bf_inode_unlink ino in bf_inode_unlink ino) t
  = bf_inode_unlink ino t.
Proof.
  unfold bind. destruct (t !! ino) as [e |] eqn:E.
  - rewrite (unlink_present _ _ _ E).
    rewrite (unlink_present _ _ _ (lookup_insert_eq _ _ _)).
    rewrite insert_insert_eq. reflexivity.
  - rewrite (unlink_absent _ _ E). apply (unlink_absent _ _ E).
Qed.

(** A call keeps the flag of an entry that it keeps. *)
Lemma step_keeps_flag o t r t' k e e' :
  step o t = Ret r t' -> t !! k = Some e -> unlinked e = true ->
  t' !! k = Some e' -> unlinked e' = true.
Proof.
  intros H He Hflag He'.
  destruct (decide (k = op_ino o)) as [-> | Hne].
  - step_inv H; simpl in *; try congruence;
      try (rewrite lookup_insert_eq in He'; inversion He'; subst; simpl;
           congruence).
    rewrite lookup_delete_eq in He'. discriminate.
  - rewrite (step_other _ _ _ _ _ H Hne) in He'. congruence.
Qed.

Lemma run_keeps_flag k ops :
  forall t t' e,
    run ops t = Ret tt t' -> Forall (fun o => ~ puts_on k o) ops ->
    t !! k = Some e -> unlinked e = true ->
    exists e', t' !! k = Some e' /\ unlinked e' = true.
Proof.
  induction ops as [| o ops IH]; intros t t' e H Hall He Hflag; simpl in H.
  - inversion H; subst. exists e. split; assumption.
  - unfold bind in H.
    destruct (step o t) as [r t1 | |] eqn:Es; try discriminate.
    apply Forall_cons in Hall as [Ho Hall].
    destruct (step_keeps_entry _ _ _ _ k Es Ho) as [e1 He1]; [eauto |].
    apply (IH t1 t' e1 H Hall He1).
    exact (step_keeps_flag _ _ _ _ _ _ _ Es He Hflag He1).
Qed.

(** X9.  Deferred deletion: [bf_inode_unlink] on an inode that has an
    entry returns [false] and flags the entry; whatever calls follow
    that are not puts on the inode, the entry is still there and
    flagged, and the put that releases all its references removes it
    and returns [true]. *)
Theorem unlink_defers_deletion (t : rhashtable) (ino : Z) (e : bf_inode) :
  t !! ino = Some e ->
  exists t1,
    bf_inode_unlink ino t = Ret false t1 /\
    forall ops t2,
      Forall (fun o => ~ puts_on ino o) ops ->
      run ops t1 = Ret tt t2 ->
      exists e2,
        t2 !! ino = Some e2 /\ unlinked e2 = true /\
        forall ok,
          bf_inode_put ok ino (open_count e2) t2 = Ret true (delete ino t2).
Proof.
  intros E. eexists. split; [apply (unlink_present _ _ _ E) |].
  intros ops t2 Hall Hrun.
  destruct (run_keeps_flag ino ops _ t2 (set_unlinked true e) Hrun Hall)
    as (e2 & He2 & Hflag); [apply lookup_insert_eq | reflexivity |].
  exists e2. split; [exact He2 |]. split; [exact Hflag |].
  intros ok. rewrite (put_present _ _ _ _ _ He2).
  rewrite Z.ltb_irrefl, Z.sub_diag. cbn. rewrite Hflag. reflexivity.
Qed.

Lemma unlink_defers_deletion_42 :
  exists t1,
    bf_inode_unlink 42 (<[42 := set_open_count 2 (new_bf_inode 42)]> ∅)
      = Ret false t1 /\
    forall ops t2,
      Forall (fun o => ~ puts_on 42 o) ops ->
      run ops t1 = Ret tt t2 ->
      exists e2,
        t2 !! 42 = Some e2 /\ unlinked e2 = true /\
        forall ok,
          bf_inode_put ok 42 (open_count e2) t2 = Ret true (delete 42 t2).
Proof.
  apply (unlink_defers_deletion _ 42 (set_open_count 2 (new_bf_inode 42))).
  apply lookup_insert_eq.
Defined.

(** X10.  [bf_inode_put] returns [true] exactly when it has removed an
    entry that was flagged by [bf_inode_unlink]: never for an inode
    without entry, never for an entry that stays, never for an entry
    that was not flagged. *)
Theorem put_true_iff_removed_flagged
    (t t' : rhashtable) (ino n : Z) (ok b : bool) :
  bf_inode_put ok ino n t = Ret b t' ->
  (b = true <->
   exists e, t !! ino = Some e /\ unlinked e = true /\ t' !! ino = None).
Proof.
  intros H. destruct (t !! ino) as [e |] eqn:E; [| destruct ok].
  - rewrite (put_present _ _ _ _ _ E) in H.
    destruct (open_count e <? n); [discriminate |].
    destruct (0 <? wrap64 (open_count e - n)); inversion H; subst.
    + split; [discriminate |]. intros (e0 & _ & _ & Hgone).
      rewrite lookup_insert_eq in Hgone. discriminate.
    + split.
      * intros Hb. exists e. rewrite lookup_delete_eq. repeat split; assumption.
      * intros (e0 & He0 & Hflag & _). inversion He0; subst. exact Hflag.
  - rewrite (put_absent _ _ _ E) in H.
    destruct (0 <? n); [discriminate |].
    destruct (0 <? wrap64 (0 - n)); inversion H; subst;
      (split; [discriminate | intros (e0 & He0 & _); discriminate]).
  - rewrite (put_enomem _ _ _ E) in H. discriminate.
Qed.

Lemma put_true_iff_removed_flagged_42 :
  let e := set_unlinked true (set_open_count 1 (new_bf_inode 42)) in
  let t : rhashtable := <[42 := e]> ∅ in
  (true = true <->
   exists e0, t !! 42 = Some e0 /\ unlinked e0 = true /\
              delete 42 t !! 42 = None).
Proof.
  intros e t. apply (put_true_iff_removed_flagged t (delete 42 t) 42 1 true true).
  rewrite (put_present _ _ _ e) by apply lookup_insert_eq. reflexivity.
Defined.

(** X11.  No deletion without unlink: start from a table without entry
    for the inode and make any calls except [bf_inode_unlink] on it;
    then no put on the inode returns [true]. *)
Theorem never_unlinked_never_deleted
    (t0 t : rhashtable) (ino : Z) (ops : list op) :
  t0 !! ino = None ->
  Forall (fun o => o <> Unlink ino) ops ->
  run ops t0 = Ret tt t ->
  forall ok n b t', bf_inode_put ok ino n t = Ret b t' -> b = false.
Proof.
  intros Hfresh Hall Hrun ok n b t' Hput.
  assert (Hunflagged : forall e, t !! ino = Some e -> unlinked e = false).
  { apply (run_keeps_unflagged ino ops t0 t Hrun Hall). congruence. }
  destruct (t !! ino) as [e |] eqn:E; [| destruct ok].
  - rewrite (put_present _ _ _ _ _ E) in Hput.
    destruct (open_count e <? n); [discriminate |].
    destruct (0 <? wrap64 (open_count e - n)); inversion Hput; subst;
      [reflexivity | apply Hunflagged; reflexivity].
  - rewrite (put_absent _ _ _ E) in Hput.
    destruct (0 <? n); [discriminate |].
    destruct (0 <? wrap64 (0 - n)); inversion Hput; reflexivity.
  - rewrite (put_enomem _ _ _ E) in Hput. discriminate.
Qed.

Lemma never_unlinked_never_deleted_42 :
  run [GetRef true 42; GetRef true 42; Put true 42 1] ∅
    = Ret tt (<[42 := set_open_count 1 (new_bf_inode 42)]> ∅) /\
  forall ok n b t',
    bf_inode_put ok 42 n (<[42 := set_open_count 1 (new_bf_inode 42)]> ∅)
      = Ret b t' ->
    b = false.
Proof.
  assert (Hrun : run [GetRef true 42; GetRef true 42; Put true 42 1] ∅
                 = Ret tt (<[42 := set_open_count 1 (new_bf_inode 42)]> ∅))
    by (vm_compute; reflexivity).
  split; [exact Hrun |].
  apply (never_unlinked_never_deleted
           ∅ (<[42 := set_open_count 1 (new_bf_inode 42)]> ∅) 42
           [GetRef true 42; GetRef true 42; Put true 42 1]).
  - apply lookup_empty.
  - repeat constructor; discriminate.
  - exact Hrun.
Defined.

(** X14.  [bf_inode_put] leaves no entry behind that was not there:
    although it goes through [__bf_inode_get], which creates the
    entry of an inode that has none, every key of the table after the
    call was a key before. *)
Theorem put_never_adds (t t' : rhashtable) (ino n : Z) (ok b : bool) :
  0 <= n < 2 ^ 64 ->
  bf_inode_put ok ino n t = Ret b t' ->
  forall k, is_Some (t' !! k) -> is_Some (t !! k).
Proof.
  intros Hn H k Hk. destruct (t !! ino) as [e |] eqn:E; [| destruct ok].
  - rewrite (put_present _ _ _ _ _ E) in H.
    destruct (open_count e <? n); [discriminate |].
    destruct (0 <? wrap64 (open_count e - n)); inversion H; subst.
    + destruct (decide (ino = k)) as [<- | Hne]; [rewrite E; eauto |].
      rewrite lookup_insert_ne in Hk by exact Hne. exact Hk.
    + destruct (decide (ino = k)) as [<- | Hne].
      * rewrite lookup_delete_eq in Hk. destruct Hk as [? Hk]. discriminate.
      * rewrite lookup_delete_ne in Hk by exact Hne. exact Hk.
  - rewrite (put_absent _ _ _ E) in H.
    destruct (0 <? n) eqn:Elt; [discriminate |]. apply Z.ltb_ge in Elt.
    replace n with 0 in H by lia. cbn in H. inversion H; subst. exact Hk.
  - rewrite (put_enomem _ _ _ E) in H. discriminate.
Qed.

Lemma put_never_adds_7 :
  bf_inode_put true 7 0 (<[42 := new_bf_inode 42]> ∅)
    = Ret false (<[42 := new_bf_inode 42]> ∅) /\
  forall k,
    is_Some ((<[42 := new_bf_inode 42]> ∅ : rhashtable) !! k) ->
    is_Some ((<[42 := new_bf_inode 42]> ∅ : rhashtable) !! k).
Proof.
  assert (Hput : bf_inode_put true 7 0 (<[42 := new_bf_inode 42]> ∅)
                 = Ret false (<[42 := new_bf_inode 42]> ∅)).
  { rewrite put_absent by (vm_compute; reflexivity). reflexivity. }
  split; [exact Hput |].
  apply (put_never_adds _ _ 7 0 true false); [lia | exact Hput].
Defined.

(** ** The lock *)

(** A move keeps the holder of the lock the only thread inside a
    critical section, whatever [calloc] answers. *)
Lemma thread_step_excludes ino ok i c c' :
  (forall j th, threads c !! j = Some th -> inside (at_pc th) ->
                lock c = Some j) ->
  thread_step ino ok i c = Next c' ->
  forall j th, threads c' !! j = Some th -> inside (at_pc th) ->
               lock c' = Some j.
Proof.
  intros Hone Hstep. unfold thread_step in Hstep.
  destruct (threads c !! i) as [thi |] eqn:Hi; [| discriminate].
  pose proof (lookup_lt_Some _ _ _ Hi) as Hlen.
  pose proof (Hone i thi Hi) as Hmine.
  assert (Hmove : forall l' t' th',
            (inside (at_pc th') -> l' = Some i) ->
            (l' = lock c \/ lock c = None \/ inside (at_pc thi)) ->
            forall j th,
              threads {| lock := l'; table := t';
                         threads := <[i := th']> (threads c) |} !! j = Some th ->
              inside (at_pc th) ->
              lock {| lock := l'; table := t';
                      threads := <[i := th']> (threads c) |} = Some j).
  { intros l' t' th' Hnew Hold j th Hj Hin. cbn in *.
    destruct (decide (i = j)) as [<- | Hne].
    - rewrite list_lookup_insert_eq in Hj by exact Hlen.
      inversion Hj; subst. exact (Hnew Hin).
    - rewrite list_lookup_insert_ne in Hj by exact Hne.
      pose proof (Hone j th Hj Hin) as Hl.
      destruct Hold as [-> | [Hfree | Hi_in]]; [exact Hl | congruence |].
      rewrite (Hmine Hi_in) in Hl. congruence. }
  destruct thi as [p n]; destruct p; cbn [at_pc todo] in *;
    unfold mutex_lock, mutex_unlock, exec in Hstep;
    repeat match type of Hstep with
           | context [match n with O => _ | S _ => _ end] => destruct n
           | context [if ?b then _ else _] => destruct b
           | context [match lock c with _ => _ end] =>
               destruct (lock c) eqn:Hl
           | context [match ?m (table c) with _ => _ end] =>
               destruct (m (table c))
           end;
    try discriminate; inversion Hstep; subst; clear Hstep;
    apply Hmove; cbn in *; intuition.
Qed.

Lemma run_threads_excludes ino sched :
  forall c c',
    (forall j th, threads c !! j = Some th -> inside (at_pc th) ->
                  lock c = Some j) ->
    run_threads ino sched c = Some c' ->
    forall j th, threads c' !! j = Some th -> inside (at_pc th) ->
                 lock c' = Some j.
Proof.
  induction sched as [| [i ok] sched IH]; intros c c' Hone Hrun;
    cbn [run_threads] in Hrun.
  - inversion Hrun; subst. exact Hone.
  - destruct (thread_step ino ok i c) as [c1 | |] eqn:Hstep;
      [| exact (IH c c' Hone Hrun) | discriminate].
    apply (IH c1 c'); [| exact Hrun].
    exact (thread_step_excludes ino ok i c c1 Hone Hstep).
Qed.

(** X15.  Mutual exclusion: [mutex_lock] and [mutex_unlock] bracket the
    bodies of [bf_inode_get_ref] and [bf_inode_put], so at any point of
    any schedule, allocation failures included, a thread that is
    inside one of the two bodies holds the lock, and no two threads
    are inside at once. *)
Theorem one_thread_inside
    (ino : Z) (rounds : list nat) (sched : list (nat * bool)) (c : config) :
  run_threads ino sched (start rounds) = Some c ->
  forall j k thj thk,
    threads c !! j = Some thj -> inside (at_pc thj) ->
    threads c !! k = Some thk -> inside (at_pc thk) ->
    lock c = Some j /\ j = k.
Proof.
  intros Hrun j k thj thk Hj Hinj Hk Hink.
  assert (Hone : forall i th, threads c !! i = Some th -> inside (at_pc th) ->
                              lock c = Some i).
  { apply (run_threads_excludes ino sched (start rounds) c); [| exact Hrun].
    intros i th Hi Hin. cbn in Hi. rewrite list_lookup_fmap in Hi.
    destruct (rounds !! i); cbn in Hi; [| discriminate].
    inversion Hi; subst. contradiction. }
  pose proof (Hone j thj Hj Hinj) as Hlj.
  pose proof (Hone k thk Hk Hink) as Hlk.
  split; [exact Hlj | congruence].
Qed.

Lemma one_thread_inside_two :
  exists c,
    run_threads 42 [(0, true); (1, false); (0, true); (1, true)]%nat
      (start [1; 1]%nat) = Some c /\
    at_pc <$> threads c = [GetRefGot (Entry 42); Idle] /\
    forall j k thj thk,
      threads c !! j = Some thj -> inside (at_pc thj) ->
      threads c !! k = Some thk -> inside (at_pc thk) ->
      lock c = Some j /\ j = k.
Proof.
  eexists. split; [vm_compute; reflexivity |].
  split; [reflexivity |].
  apply (one_thread_inside 42 [1; 1]%nat
           [(0, true); (1, false); (0, true); (1, true)]%nat).
  vm_compute. reflexivity.
Defined.
